(** * generate_lst.py: inclusion decision, tree rendering and document assembly

    A shallow embedding of [src/generate_lst.py].  The script walks a project
    root, filters the entries through a [.lstignore] matcher (the third-party
    [pathspec] package, dialect [gitwildmatch]), renders the kept paths as an
    ASCII tree and concatenates the kept files into one tagged document.

    Conventions of the embedding:
    - a Python [str] is a [string] holding its UTF-8 bytes; file data is a
      [list byte];
    - a relative [pathlib.Path] is the list of its [parts]; [Path('.')] is [[]];
    - the filesystem below the root is the list of entries that
      [root.rglob("*")] yields, each with what [is_file], [is_dir] and [open]
      answer for it;
    - Python sets and dicts of paths are stdpp [gset]s and [gmap]s;
    - console output ([print]) is not modelled, the written file is. *)

From Stdlib Require Import Ascii String.
From Stdlib Require Import Strings.Byte.
From stdpp Require Import base decidable option list sorting strings gmap.
From Equations Require Import Equations.

Set Default Proof Using "Type".
Set Warnings "-clear-no-such-hyp".

(* ===================================================================== *)
(** ** Python string primitives *)
(* ===================================================================== *)

Module Py.

Definition newline : ascii := "010"%char.
Definition slash : ascii := "/"%char.
Definition backslash : ascii := "\"%char.

(** The one-character string [LF]; Rocq string literals have no escapes. *)
Definition LF : string := String newline EmptyString.

(** [s.startswith(p)] *)
Definition startswith (s p : string) : bool := String.prefix p s.

(** [s.endswith(p)] *)
Definition endswith (s p : string) : bool :=
  String.prefix (String.rev p) (String.rev s).

(** [str.isspace] on the ASCII range: TAB, LF, VT, FF, CR, FS, GS, RS, US and
    the space. *)
Definition isspace (c : ascii) : bool :=
  match c with
  | "009" | "010" | "011" | "012" | "013"
  | "028" | "029" | "030" | "031" | " " => true
  | _ => false
  end%char.

(** [s.lstrip()] *)
Fixpoint lstrip (s : string) : string :=
  match s with
  | String c s' => if isspace c then lstrip s' else s
  | EmptyString => EmptyString
  end.

(** [s.strip()] *)
Definition strip (s : string) : string :=
  String.rev (lstrip (String.rev (lstrip s))).

(** [s.split(sep)] for a one-character separator: never the empty list. *)
Fixpoint split (sep : ascii) (s : string) : list string :=
  match s with
  | EmptyString => [EmptyString]
  | String c s' =>
      if Ascii.eqb c sep then EmptyString :: split sep s'
      else match split sep s' with
           | h :: t => String c h :: t
           | [] => [String c EmptyString]
           end
  end.

(** [sep.join(l)] *)
Definition join (sep : string) (l : list string) : string :=
  String.concat sep l.

(** [s.replace(a, b)] for one-character [a] and [b]. *)
Fixpoint replace (a b : ascii) (s : string) : string :=
  match s with
  | EmptyString => EmptyString
  | String c s' => String (if Ascii.eqb c a then b else c) (replace a b s')
  end.

(** [s.splitlines()] restricted to the LF terminator: the number of lines of
    a text is the length of this list. *)
Fixpoint splitlines_go (cur : string) (s : string) : list string :=
  match s with
  | EmptyString =>
      match cur with EmptyString => [] | _ => [String.rev cur] end
  | String c s' =>
      if Ascii.eqb c newline then String.rev cur :: splitlines_go EmptyString s'
      else splitlines_go (String c cur) s'
  end.
Definition splitlines (s : string) : list string :=
  splitlines_go EmptyString s.

End Py.

(* ===================================================================== *)
(** ** Regular expressions, as far as [pathspec] generates them *)
(* ===================================================================== *)

Module Re.

(** Modelled from the spec: the regular expressions of Python's [re]
    that [pathspec] compiles its rules to, as far as section 4.1 needs
    them: literals, [[^/]], [.], concatenation, the optional group and
    repetition. *)
Inductive t : Type :=
| Never                       (* matches nothing *)
| Eps                         (* the empty word *)
| Chr (c : ascii)             (* an escaped literal character *)
| NotSlash                    (* [^/] *)
| Dot                         (* .  : any character but a newline *)
| Seq (r1 r2 : t)
| Alt (r1 r2 : t)
| Star (r : t).

Definition Plus (r : t) : t := Seq r (Star r).
Definition Opt (r : t) : t := Alt Eps r.

Fixpoint nullable (r : t) : bool :=
  match r with
  | Never => false
  | Eps => true
  | Chr _ | NotSlash | Dot => false
  | Seq r1 r2 => nullable r1 && nullable r2
  | Alt r1 r2 => nullable r1 || nullable r2
  | Star _ => true
  end.

Definition seq (r1 r2 : t) : t :=
  match r1, r2 with
  | Never, _ | _, Never => Never
  | Eps, _ => r2
  | _, _ => Seq r1 r2
  end.

Definition alt (r1 r2 : t) : t :=
  match r1, r2 with
  | Never, _ => r2
  | _, Never => r1
  | _, _ => Alt r1 r2
  end.

(** Brzozowski derivative of [r] by the character [c]. *)
Fixpoint deriv (c : ascii) (r : t) : t :=
  match r with
  | Never | Eps => Never
  | Chr d => if Ascii.eqb c d then Eps else Never
  | NotSlash => if Ascii.eqb c Py.slash then Never else Eps
  | Dot => if Ascii.eqb c Py.newline then Never else Eps
  | Seq r1 r2 =>
      if nullable r1 then alt (seq (deriv c r1) r2) (deriv c r2)
      else seq (deriv c r1) r2
  | Alt r1 r2 => alt (deriv c r1) (deriv c r2)
  | Star r1 => seq (deriv c r1) (Star r1)
  end.

(** Does [r] match the whole of [s]? *)
Fixpoint fullmatch (r : t) (s : string) : bool :=
  match s with
  | EmptyString => nullable r
  | String c s' => fullmatch (deriv c r) s'
  end.

(** Modelled from the spec: Python's
    [re.compile('^' + r + '$').match(s) is not None]; the dollar also
    matches just before a newline that ends the string. *)
Definition anchored_match (r : t) (s : string) : bool :=
  fullmatch (Seq r (Opt (Chr Py.newline))) s.

End Re.

(* ===================================================================== *)
(** ** The [pathspec] matcher ([gitwildmatch] dialect) *)
(* ===================================================================== *)

Module PathSpec.
Import Re.

(** [generate_lst.py] imports the third-party package [pathspec] and calls
    [PathSpec.from_lines("gitwildmatch", patterns)] and [spec.match_file];
    the package is not among the repository sources.  This module models
    it after section 4.1 of the specification (blank and [#] lines are no
    rules, a trailing [/] restricts a rule to directories and what lies
    beneath, a leading [/] anchors, a lone segment matches at any depth,
    [*] stays inside a segment, [**] spans segments, [!] negates, the last
    matching rule decides, no match means not ignored), in the shape
    [pathspec] 0.12 gives it: every rule line becomes a regular expression
    and a polarity, and a directory is presented to the matcher as its
    path followed by a slash.  Bracket expressions ([[a-z]]) are outside
    the model: a line with one is reported like a line that does not
    compile.  The named group that marks a directory match does not change
    what matches and is left out. *)

(** Modelled from the spec: [pathspec]'s [RegexPattern], missing from the
    sources.  [include] is [Some true] for an ignore rule, [Some false]
    for a negation, [None] for a line that is no rule. *)
Record RegexPattern : Type := mkPattern {
  include : option bool;
  regex : option Re.t;
}.

(** Modelled from the spec: [pathspec]'s
    [GitWildMatchPattern._translate_segment_glob], missing from the
    sources.  One path segment of a rule as a regular expression: [*] is
    any run of characters other than the slash, [?] one such character, a
    backslash escapes; [None] when a backslash ends the segment. *)
Fixpoint translate_segment_glob (escape : bool) (pattern : string)
  : option Re.t :=
  match pattern with
  | EmptyString => if escape then None else Some Eps
  | String char rest =>
      if escape then Seq (Chr char) <$> translate_segment_glob false rest
      else if Ascii.eqb char Py.backslash then translate_segment_glob true rest
      else if Ascii.eqb char "*" then
        Seq (Star NotSlash) <$> translate_segment_glob false rest
      else if Ascii.eqb char "?" then
        Seq NotSlash <$> translate_segment_glob false rest
      else if Ascii.eqb char "[" then None
      else Seq (Chr char) <$> translate_segment_glob false rest
  end.

(** The duplicate double-asterisk pass: each run of [**] segments collapses
    to one. *)
Fixpoint collapse_double_asterisks (segs : list string) : list string :=
  match segs with
  | prev :: ((seg :: _) as rest) =>
      if bool_decide (prev = "**") && bool_decide (seg = "**")
      then collapse_double_asterisks rest
      else prev :: collapse_double_asterisks rest
  | _ => segs
  end.

(** The optional group appended to the last segment (a slash, then any
    characters): a rule matches the entry and everything beneath it. *)
Definition and_beneath : Re.t := Opt (Seq (Chr Py.slash) (Star Dot)).

(** Modelled from the spec: the loop of [pathspec]'s [pattern_to_regex]
    that emits the expression, segment by segment; [i] is the index of the
    head of [segs], [last] the index of the last segment. *)
Fixpoint build_regex (segs : list string) (i last : nat) (need_slash : bool)
  : option (list Re.t) :=
  match segs with
  | [] => Some []
  | seg :: rest =>
      let sep := if need_slash then [Chr Py.slash] else [] in
      let tail := if bool_decide (i = last) then [and_beneath] else [] in
      if bool_decide (seg = "**") then
        if bool_decide (i = 0) && bool_decide (i = last) then
          ([Plus NotSlash; and_beneath] ++.) <$>
            build_regex rest (S i) last need_slash
        else if bool_decide (i = 0) then
          ([Opt (Seq (Plus Dot) (Chr Py.slash))] ++.) <$>
            build_regex rest (S i) last false
        else if bool_decide (i = last) then
          ([Chr Py.slash; Star Dot] ++.) <$>
            build_regex rest (S i) last need_slash
        else
          ([Opt (Seq (Chr Py.slash) (Plus Dot))] ++.) <$>
            build_regex rest (S i) last true
      else if bool_decide (seg = "*") then
        ((sep ++ [Plus NotSlash] ++ tail) ++.) <$>
          build_regex rest (S i) last true
      else
        glob ← translate_segment_glob false seg;
        ((sep ++ [glob] ++ tail) ++.) <$> build_regex rest (S i) last true
  end.

(** [''.join(output)] *)
Definition join_regex (output : list Re.t) : Re.t := foldr Seq Eps output.

(** Modelled from the spec: [pathspec]'s
    [GitWildMatchPattern.pattern_to_regex], missing from the sources.  The
    expression and the polarity of one rule line; [None] when the line
    raises [GitWildMatchPatternError]. *)
Definition pattern_to_regex (pattern : string)
  : option (option Re.t * option bool) :=
  let pattern :=
    if Py.endswith pattern "\ " then Py.lstrip pattern
    else Py.strip pattern in
  if Py.startswith pattern "#" then Some (None, None)
  else if bool_decide (pattern = "/") then Some (None, None)
  else if bool_decide (pattern = EmptyString) then Some (None, None)
  else
    let '(incl, pattern) :=
      if Py.startswith pattern "!"
      then (false, String.substring 1 (String.length pattern - 1) pattern)
      else (true, pattern) in
    let pattern_segs := collapse_double_asterisks (Py.split Py.slash pattern) in
    let override :=
      bool_decide (pattern_segs = ["**"; EmptyString]) in
    let pattern_segs :=
      match pattern_segs with
      | EmptyString :: rest => rest
      | [seg] | [seg; EmptyString] =>
          if bool_decide (seg = "**") then pattern_segs
          else "**" :: pattern_segs
      | _ => pattern_segs
      end in
    match pattern_segs with
    | [] => None
    | _ =>
        let pattern_segs :=
          if bool_decide (List.last pattern_segs "x" = EmptyString)
             && bool_decide (1 < length pattern_segs)
          then removelast pattern_segs ++ ["**"] else pattern_segs in
        if override then
          Some (Some (Seq (Plus Dot) (Seq (Chr Py.slash) (Star Dot))), Some incl)
        else
          output ← build_regex pattern_segs 0 (length pattern_segs - 1) false;
          Some (Some (join_regex output), Some incl)
    end.

(** Modelled from the spec: [pathspec]'s constructor
    [GitWildMatchPattern(line)]. *)
Definition compile_pattern (line : string) : option RegexPattern :=
  '(r, incl) ← pattern_to_regex line;
  Some {| include := incl; regex := r |}.

(** A compiled [PathSpec] is the list of its patterns, in rule order. *)
Definition t : Type := list RegexPattern.

(** Modelled from the spec: [pathspec]'s
    [PathSpec.from_lines("gitwildmatch", lines)], missing from the sources.
    Empty lines are dropped, every other line is compiled; [None] when one
    of them raises. *)
Definition from_lines (lines : list string) : option t :=
  mapM compile_pattern
    (filter (λ line, line ≠ EmptyString) lines).

(** Modelled from the spec: [pathspec]'s [util.normalize_file] on a POSIX
    host: one leading [/] or [./] goes. *)
Definition normalize_file (file : string) : string :=
  if Py.startswith file "/"
  then String.substring 1 (String.length file - 1) file
  else if Py.startswith file "./"
  then String.substring 2 (String.length file - 2) file
  else file.

(** Modelled from the spec: [pathspec]'s
    [RegexPattern.match_file(file) is not None]. *)
Definition pattern_matches (p : RegexPattern) (file : string) : bool :=
  match regex p with
  | Some r => anchored_match r file
  | None => false
  end.

(** Modelled from the spec: [pathspec]'s [util.check_match_file], missing
    from the sources.  The loop over the patterns, in rule order, keeps the
    polarity of the last one that matches. *)
Definition check_match_file (patterns : t) (file : string) : option bool :=
  foldl (λ out_include pattern,
           match include pattern with
           | Some incl =>
               if pattern_matches pattern file then Some incl
               else out_include
           | None => out_include
           end) None patterns.

(** Modelled from the spec: [pathspec]'s [PathSpec.match_file(file)],
    missing from the sources.  [true] means the path is ignored; a path
    that no rule matches is not. *)
Definition match_file (spec : t) (file : string) : bool :=
  match check_match_file spec (normalize_file file) with
  | Some incl => incl
  | None => false
  end.

End PathSpec.

(* ===================================================================== *)
(** ** Relative paths ([pathlib]) *)
(* ===================================================================== *)

(** A relative [Path] is the list of its [parts]. *)
Definition Path : Type := list string.

Module PathLib.

(** [str(p)]: the parts joined by [/]; the empty path prints as a dot. *)
Definition str (p : Path) : string :=
  match p with
  | [] => "."
  | _ => Py.join "/" p
  end.

(** [p.parent]: the last part removed; [Path('.')] is its own parent. *)
Definition parent (p : Path) : Path := removelast p.

(** [p.name]: the last part, empty for [Path('.')]. *)
Definition name (p : Path) : string := List.last p EmptyString.

(** [p <= q]: Python compares the part lists, so the first differing part
    decides, and a proper prefix is smaller. *)
Fixpoint leb (p q : Path) : bool :=
  match p, q with
  | [], _ => true
  | _ :: _, [] => false
  | a :: p', b :: q' =>
      if decide (a = b) then leb p' q' else bool_decide (String.le a b)
  end.

Definition le (p q : Path) : Prop := leb p q.

#[global] Instance le_dec : RelDecision le.
Proof. intros p q. unfold le. apply _. Defined.

(** [a] is a strict ancestor of [p]: [p] lies beneath [a]. *)
Definition strict_ancestor (a p : Path) : Prop :=
  a `prefix_of` p ∧ a ≠ p.

#[global] Instance strict_ancestor_dec : RelDecision strict_ancestor.
Proof. intros a p. unfold strict_ancestor. apply _. Defined.

End PathLib.

(* ===================================================================== *)
(** ** The filesystem below the root *)
(* ===================================================================== *)

(** What the script can observe of one entry. *)
Inductive kind : Type :=
| RegularFile (data : option (list byte))
    (* [is_file()]; [None] when opening or reading it raises *)
| Directory   (* [is_dir()] *)
| Other.      (* neither: a dangling link, a socket, ... *)

(** One path yielded by [root.rglob("*")]: [rel] is
    [path.relative_to(root)], which never fails for a path that [rglob]
    found below [root]. *)
Record entry : Type := mkEntry {
  rel : Path;
  kind_of : kind;
}.

Definition is_file (e : entry) : bool :=
  match kind_of e with RegularFile _ => true | _ => false end.

Definition is_dir (e : entry) : bool :=
  match kind_of e with Directory => true | _ => false end.

(** [path.name == n and path.parent == root] *)
Definition named_in_root (e : entry) (n : string) : bool :=
  bool_decide (PathLib.name (rel e) = n) && bool_decide (length (rel e) = 1).

(* ===================================================================== *)
(** ** [generate_lst.py] *)
(* ===================================================================== *)

Definition default_ignores : list string := [".git/"; ".lstignore"; "lst.txt"].

(** [load_ignore_file(root)].  [ignore_file] is [Some lines] when
    [root/.lstignore] is a file, with [lines] its [splitlines()], and [None]
    otherwise.  The result is [None] when [pathspec] rejects a line. *)
Definition load_ignore_file (ignore_file : option (list string))
  : option PathSpec.t :=
  let patterns :=
    match ignore_file with
    | Some lines => lines
    | None => []
    end in
  PathSpec.from_lines (patterns ++ default_ignores).

Definition NUL : byte := x00.

(** [is_binary(path, blocksize=1024)] *)
Definition is_binary (e : entry) : bool :=
  match kind_of e with
  | RegularFile (Some data) => existsb (Byte.eqb NUL) (take 1024 data)
  | RegularFile None => true
  | _ => false
  end.

(** The inner [while str(current) != '.'] loop of [get_filtered_paths]. *)
Equations? add_parents (current : Path) (included : gset Path)
  : gset Path by wf (length current) lt :=
  add_parents current included with decide (PathLib.str current = ".") => {
    | left _ => included
    | right _ =>
        add_parents (PathLib.parent current) ({[current]} ∪ included) }.
Proof.
  destruct current as [|a current] using rev_ind; [done|].
  unfold PathLib.parent. rewrite removelast_last, length_app. simpl. lia.
Qed.

Definition output_filename : string := "lst.txt".

(** The body of the [for path in root.rglob("*")] loop of
    [get_filtered_paths]. *)
Definition get_filtered_paths_step (spec : PathSpec.t)
    (included : gset Path) (e : entry) : gset Path :=
  let relative_path := rel e in
  if PathSpec.match_file spec (PathLib.str relative_path)
     || PathSpec.match_file spec (PathLib.str relative_path +:+ "/")
  then included
  else if named_in_root e output_filename then included
  else if is_file e then
    if negb (is_binary e) then
      add_parents (PathLib.parent relative_path)
        ({[relative_path]} ∪ included)
    else included
  else included.

(** [get_filtered_paths(root, spec)], over the entries in walk order. *)
Definition get_filtered_paths (walk : list entry) (spec : PathSpec.t)
  : gset Path :=
  foldl (get_filtered_paths_step spec) ∅ walk.

(** [sorted(list(included_relative_paths))]: Python's sort is a stable merge
    sort driven by the comparison of the paths. *)
Definition sorted (listing : list Path) : list Path :=
  merge_sort PathLib.le listing.

(** The body of the first loop of [generate_tree_string]: file [path] under
    its parent in [parent_map]. *)
Definition parent_map_step (parent_map : gmap Path (list Path)) (path : Path)
  : gmap Path (list Path) :=
  let parent := PathLib.parent path in
  let parent_map :=
    match parent_map !! parent with
    | None => <[parent := []]> parent_map
    | Some _ => parent_map
    end in
  alter (λ children, children ++ [path]) parent parent_map.

(** The second loop: the last child of every parent. *)
Definition last_items_of (parent_map : gmap Path (list Path)) : gset Path :=
  map_fold (λ _ children last_items,
              match last children with
              | Some child => {[child]} ∪ last_items
              | None => last_items
              end) ∅ parent_map.

(** The [for j in range(depth - 1)] loop: the indentation of one line. *)
Definition tree_prefix (last_items : gset Path) (path : Path) : string :=
  let depth := length path in
  foldl (λ prefix j,
           let ancestor := take (j + 1) path in
           if decide (ancestor ∈ last_items) then prefix +:+ "    "
           else prefix +:+ "│   ")
        EmptyString (seq 0 (depth - 1)).

(** [generate_tree_string] after [list(included_relative_paths)]: [listing]
    is the set in the order in which Python happens to iterate over it. *)
Definition render_tree (root_name : string) (listing : list Path) : string :=
  let sorted_paths := sorted listing in
  let tree_lines := [root_name +:+ "/"] in
  let parent_map := foldl parent_map_step ∅ sorted_paths in
  let last_items := last_items_of parent_map in
  let tree_lines :=
    foldl (λ tree_lines path,
             let prefix := tree_prefix last_items path in
             let connector :=
               if decide (path ∈ last_items) then "└── " else "├── " in
             tree_lines ++ [prefix +:+ connector +:+ PathLib.name path])
          tree_lines sorted_paths in
  Py.join Py.LF tree_lines.

(** The text returned for an empty inclusion set. *)
Definition nothing_to_include (root_name : string) : string :=
  root_name +:+ "/" +:+ Py.LF
    +:+ "(포함할 파일 또는 디렉토리가 없습니다.)" +:+ Py.LF.

(** [generate_tree_string(root, spec)]; [root_name] is [root.name]. *)
Definition generate_tree_string (root_name : string) (walk : list entry)
    (spec : PathSpec.t) : string :=
  let included_relative_paths := get_filtered_paths walk spec in
  if decide (included_relative_paths = ∅) then nothing_to_include root_name
  else render_tree root_name (elements included_relative_paths).

(** [iter_source_files(root, spec)]: does the generator yield this entry? *)
Definition yields (spec : PathSpec.t) (e : entry) : bool :=
  if is_dir e then false
  else if PathSpec.match_file spec (PathLib.str (rel e)) then false
  else if named_in_root e ".lstignore" then false
  else if named_in_root e output_filename then false
  else true.

Definition iter_source_files (walk : list entry) (spec : PathSpec.t)
  : list entry :=
  filter (λ e, yields spec e = true) walk.

Section write_lst.

(** [Path.read_text] for the two encodings the script tries, as functions of
    the file's bytes: the decoded text (universal newlines applied), or
    [None] when decoding raises [UnicodeDecodeError]. *)
Variable read_text_utf8 : list byte → option string.
Variable read_text_cp949 : list byte → option string.

(** The [try ... except] ladder around [path.read_text]: [None] stands for
    the two [continue] branches. *)
Definition read_content (e : entry) : option string :=
  match kind_of e with
  | RegularFile (Some data) =>
      match read_text_utf8 data with
      | Some content => Some content
      | None => read_text_cp949 data
      end
  | _ => None
  end.

(** [out.write(s)] on the text written so far. *)
Definition write (out s : string) : string := out +:+ s.

(** The body of the [for path, rel in iter_source_files(root, spec)] loop. *)
Definition write_lst_step (out : string) (e : entry) : string :=
  if is_binary e then out
  else
    match read_content e with
    | None => out
    | Some content =>
        let tag := Py.replace Py.backslash Py.slash (PathLib.str (rel e)) in
        let out := write out ("<" +:+ tag +:+ ">" +:+ Py.LF) in
        let out := write out content in
        let out :=
          if negb (Py.endswith content Py.LF) then write out Py.LF
          else out in
        write out ("</" +:+ tag +:+ ">" +:+ Py.LF +:+ Py.LF)
    end.

(** [write_lst(root, outfile, spec, tree_string)]: the text of the output
    file when every write succeeds. *)
Definition write_lst (walk : list entry) (spec : PathSpec.t)
    (tree_string : string) : string :=
  let out := EmptyString in
  let out := write out ("File Tree:" +:+ Py.LF) in
  let out := write out tree_string in
  let out := write out (Py.LF +:+ Py.LF +:+ "---" +:+ Py.LF +:+ Py.LF) in
  foldl write_lst_step out (iter_source_files walk spec).

(** The files whose content reaches the document, with their content. *)
Definition emitted (walk : list entry) (spec : PathSpec.t)
  : list (Path * string) :=
  omap (λ e, if is_binary e then None
             else content ← read_content e; Some (rel e, content))
       (iter_source_files walk spec).

End write_lst.

(* ===================================================================== *)
(** ** Notions used to state the properties *)
(* ===================================================================== *)

(** A walk of a real directory tree: no path is met twice, and only
    directories have entries beneath them. *)
Definition tree_shaped (walk : list entry) : Prop :=
  NoDup (rel <$> walk) ∧
  Forall (λ e, Forall (λ e', PathLib.strict_ancestor (rel e) (rel e') →
                             is_dir e) walk) walk.

#[global] Instance tree_shaped_dec walk : Decision (tree_shaped walk).
Proof. unfold tree_shaped. apply _. Defined.

(** [pathlib] never keeps a [.] component in a path. *)
Definition normal_paths (walk : list entry) : Prop :=
  Forall (λ e, "." ∉ rel e) walk.

#[global] Instance normal_paths_dec walk : Decision (normal_paths walk).
Proof. unfold normal_paths. apply _. Defined.

(** The three default rules of [load_ignore_file], compiled. *)
Definition default_patterns : PathSpec.t :=
  default [] (PathSpec.from_lines default_ignores).

(** The rule that decides a path, in the words of the specification: the
    last rule, in declaration order, whose pattern matches. *)
Definition last_matching_rule (spec : PathSpec.t) (file : string)
  : option PathSpec.RegexPattern :=
  head (filter (λ p, is_Some (PathSpec.include p)
                     ∧ PathSpec.pattern_matches p file = true)
               (reverse spec)).

(** One document entry, in the words of the specification: the opening tag
    line, the content closed by a newline, the closing tag line, a blank
    line. *)
Definition document_entry (rel : Path) (content : string) : string :=
  let tag := Py.replace Py.backslash Py.slash (PathLib.str rel) in
  let body := if Py.endswith content Py.LF then content
              else content +:+ Py.LF in
  "<" +:+ tag +:+ ">" +:+ Py.LF +:+ body +:+ "</" +:+ tag +:+ ">" +:+ Py.LF
    +:+ Py.LF.

(** The document part after the tree, in the words of the specification:
    one entry per emitted file, in order. *)
Definition document_entries (files : list (Path * string)) : string :=
  foldr (λ '(rel, content) rest, document_entry rel content +:+ rest)
        EmptyString files.

(** The entries that pass every test of the loop body of
    [get_filtered_paths]. *)
Definition kept (spec : PathSpec.t) (e : entry) : bool :=
  negb (PathSpec.match_file spec (PathLib.str (rel e)))
  && negb (PathSpec.match_file spec (PathLib.str (rel e) +:+ "/"))
  && negb (named_in_root e output_filename)
  && is_file e && negb (is_binary e).

(** A text of exactly [n] lines. *)
Definition line_count (s : string) : nat := length (Py.splitlines s).

(* ===================================================================== *)
(** ** Example data *)
(* ===================================================================== *)

(** The matcher compiled for a [.lstignore] with these lines. *)
Definition spec_of (lines : list string) : PathSpec.t :=
  default [] (load_ignore_file (Some lines)).

Definition text_file (p : Path) : entry :=
  mkEntry p (RegularFile (Some [x61; x0a])).

Definition directory (p : Path) : entry := mkEntry p Directory.


(** A file with a NUL byte among its first bytes. *)
Definition binary_file (p : Path) : entry :=
  mkEntry p (RegularFile (Some [x89; x50; x00; x01])).

(** The tree of the specification's rendering example. *)
Definition example_walk : list entry :=
  [ directory ["a"]; text_file ["a"; "x.txt"]; text_file ["a"; "y.txt"];
    directory ["b"]; text_file ["b"; "z.txt"] ].

(* ===================================================================== *)
(** ** Notions for the further properties *)
(* ===================================================================== *)

(** [rglob] never yields the root itself: every entry has a part. *)
Definition below_root (walk : list entry) : Prop :=
  Forall (λ e, rel e ≠ []) walk.

#[global] Instance below_root_dec walk : Decision (below_root walk).
Proof. unfold below_root. apply _. Defined.

(** The tag of a document entry: [str(rel).replace("\\", "/")]. *)
Definition document_tag (rel : Path) : string :=
  Py.replace Py.backslash Py.slash (PathLib.str rel).

(** The connector of a tree line, as the last loop of
    [generate_tree_string] chooses it. *)
Definition tree_connector (last_items : gset Path) (path : Path) : string :=
  if decide (path ∈ last_items) then "└── " else "├── ".

(** One line of the tree: [f"{prefix}{connector}{path.name}"]. *)
Definition tree_line (last_items : gset Path) (path : Path) : string :=
  tree_prefix last_items path +:+ tree_connector last_items path
    +:+ PathLib.name path.

(** The [last_items] that [generate_tree_string] computes for a listing. *)
Definition last_items_for (listing : list Path) : gset Path :=
  last_items_of (foldl parent_map_step ∅ (sorted listing)).

(** [path] is the greatest of the paths of [listing] that share its
    parent. *)
Definition greatest_sibling (listing : list Path) (path : Path) : Prop :=
  path ∈ listing
  ∧ ∀ q, q ∈ listing → PathLib.parent q = PathLib.parent path →
         PathLib.le q path.

(** A regular file with the given bytes. *)
Definition file_with (p : Path) (data : list byte) : entry :=
  mkEntry p (RegularFile (Some data)).

(** Decide a closed decidable proposition by evaluation. *)
Ltac by_compute := apply (bool_decide_unpack _); vm_compute; exact I.

(* ===================================================================== *)
(** ** The order on paths *)
(* ===================================================================== *)

Section path_order.

Lemma leb_cons a p b q :
  PathLib.leb (a :: p) (b :: q)
  = if decide (a = b) then PathLib.leb p q else bool_decide (String.le a b).
Proof. reflexivity. Qed.

#[global] Instance path_le_refl : Reflexive PathLib.le.
Proof.
  intros p. unfold PathLib.le. induction p as [|a p IH]; [done|].
  rewrite leb_cons. by rewrite decide_True.
Qed.

#[global] Instance path_le_trans : Transitive PathLib.le.
Proof.
  unfold PathLib.le. intros p.
  induction p as [|a p IH]; intros [|b q] [|c r]; try done.
  rewrite !leb_cons.
  destruct (decide (a = b)) as [->|Hab].
  { destruct (decide (b = c)) as [->|Hbc]; [apply IH | done]. }
  destruct (decide (b = c)) as [->|Hbc].
  { intros H _. by rewrite decide_False. }
  intros H1%bool_decide_unpack H2%bool_decide_unpack.
  destruct (decide (a = c)) as [->|Hac].
  - destruct Hab. by apply (anti_symm String.le).
  - apply bool_decide_pack. by etrans.
Qed.

#[global] Instance path_le_antisymm : AntiSymm (=) PathLib.le.
Proof.
  unfold PathLib.le. intros p.
  induction p as [|a p IH]; intros [|b q]; try done.
  rewrite !leb_cons.
  destruct (decide (a = b)) as [->|Hab].
  - rewrite decide_True by done. intros ??. f_equal. by apply IH.
  - rewrite decide_False by done.
    intros H1%bool_decide_unpack H2%bool_decide_unpack.
    destruct Hab. by apply (anti_symm String.le).
Qed.

#[global] Instance path_le_total : Total PathLib.le.
Proof.
  unfold PathLib.le. intros p.
  induction p as [|a p IH]; intros [|b q]; try (by left); try (by right).
  rewrite !leb_cons.
  destruct (decide (a = b)) as [->|Hab].
  - rewrite decide_True by done. apply IH.
  - rewrite decide_False by done.
    destruct (total String.le a b); [left|right]; by apply bool_decide_pack.
Qed.

(** A path is smaller than everything beneath it. *)
Lemma le_prefix p q : p `prefix_of` q → PathLib.le p q.
Proof.
  intros [k ->]. unfold PathLib.le. induction p as [|a p IH]; [done|].
  simpl. by rewrite decide_True.
Qed.

(** Whatever the order puts between two paths beneath [d] lies beneath
    [d] as well. *)
Lemma le_between_prefix d p r q :
  d `prefix_of` p → d `prefix_of` q →
  PathLib.le p r → PathLib.le r q → d `prefix_of` r.
Proof.
  unfold PathLib.le. revert p r q.
  induction d as [|a d IH]; intros p r q; [intros; apply prefix_nil|].
  intros [kp ->] [kq ->]. destruct r as [|b r]; [done|].
  simpl. destruct (decide (a = b)) as [->|Hab].
  - rewrite decide_True by done. intros H1 H2.
    apply prefix_cons. apply (IH (d ++ kp) r (d ++ kq)); try done.
    + by apply prefix_app_r.
    + by apply prefix_app_r.
  - rewrite decide_False by done.
    intros H1%bool_decide_unpack H2%bool_decide_unpack.
    destruct Hab. by apply (anti_symm String.le).
Qed.

Lemma StronglySorted_lookup_le (l : list Path) i j p q :
  StronglySorted PathLib.le l → i ≤ j →
  l !! i = Some p → l !! j = Some q → PathLib.le p q.
Proof.
  intros Hs. revert i j. induction Hs as [|x l Hs IH Hx]; intros i j Hij.
  { by rewrite lookup_nil. }
  destruct i as [|i], j as [|j]; simpl; try lia.
  - intros [= ->] [= ->]. reflexivity.
  - intros [= ->] Hq. eapply Forall_forall; [exact Hx|].
    by eapply list_elem_of_lookup_2.
  - apply IH. lia.
Qed.

End path_order.

(* ===================================================================== *)
(** ** The inclusion set *)
(* ===================================================================== *)

Section inclusion_set.

(** Only the empty path and the lone dot print as a dot. *)
Lemma str_dot (p : Path) : PathLib.str p = "." → p = [] ∨ p = ["."].
Proof.
  destruct p as [|a [|b p]]; [by left| |]; simpl.
  - intros ->. by right.
  - unfold Py.join. simpl. destruct a as [|c a]; simpl; [done|].
    intros [= _ H]. by destruct a.
Qed.

Lemma parent_snoc (p : Path) a : PathLib.parent (p ++ [a]) = p.
Proof. unfold PathLib.parent. apply removelast_last. Qed.

Lemma parent_prefix (p : Path) : PathLib.parent p `prefix_of` p.
Proof.
  destruct p as [|a p _] using rev_ind; [done|].
  rewrite parent_snoc. by apply prefix_app_r.
Qed.

(** One turn of the loop. *)
Lemma add_parents_turn current included :
  add_parents current included
  = if decide (PathLib.str current = ".") then included
    else add_parents (PathLib.parent current) ({[current]} ∪ included).
Proof.
  rewrite (add_parents_equation_1 current included).
  by destruct (decide (PathLib.str current = ".")).
Qed.

(** The loop only ever adds to the set. *)
Lemma add_parents_union current included :
  add_parents current included = included ∪ add_parents current ∅.
Proof.
  revert included.
  induction current as [|a current IH] using rev_ind; intros included.
  - rewrite (add_parents_turn [] included), (add_parents_turn [] ∅).
    simpl. set_solver.
  - rewrite !(add_parents_turn (current ++ [a])).
    destruct (decide _); [set_solver|].
    rewrite parent_snoc, IH, (IH (_ ∪ ∅)). set_solver.
Qed.

(** Whatever the loop adds lies on the way from [current] up to the root,
    the root excluded. *)
Lemma add_parents_sound current included p :
  p ∈ add_parents current included →
  p ∈ included ∨ (p `prefix_of` current ∧ p ≠ []).
Proof.
  revert included.
  induction current as [|a current IH] using rev_ind; intros included.
  - rewrite add_parents_turn. simpl. auto.
  - rewrite add_parents_turn. destruct (decide _) as [|Hdot]; [auto|].
    rewrite parent_snoc. intros [Hp|[Hp ?]]%IH.
    + apply elem_of_union in Hp as [->%elem_of_singleton|?]; [|auto].
      right. split; [done|]. by destruct current.
    + right. split; [|done]. by apply prefix_app_r.
Qed.

(** On a path without dot components the loop adds every ancestor below
    the root. *)
Lemma add_parents_complete current included p :
  "." ∉ current → p `prefix_of` current → p ≠ [] →
  p ∈ add_parents current included.
Proof.
  revert included.
  induction current as [|a current IH] using rev_ind; intros included Hdot.
  - intros ->%prefix_nil_inv. done.
  - intros Hp Hne. rewrite add_parents_turn.
    destruct (decide _) as [Hstr|_].
    { apply str_dot in Hstr as [Hstr|Hstr].
      - by destruct current.
      - destruct Hdot. rewrite Hstr. by left. }
    rewrite parent_snoc.
    destruct (decide (p = current ++ [a])) as [->|Hneq].
    + rewrite add_parents_union. set_solver.
    + apply IH; [set_solver| |done].
      destruct Hp as [k Hk].
      destruct k as [|b k _] using rev_ind.
      { destruct Hneq. by rewrite app_nil_r in Hk. }
      rewrite app_assoc in Hk. apply app_inj_tail in Hk as [-> _].
      by apply prefix_app_r.
Qed.

(** What one entry contributes to the set does not depend on the set. *)
Lemma get_filtered_paths_step_union spec included e :
  get_filtered_paths_step spec included e
  = included ∪ get_filtered_paths_step spec ∅ e.
Proof.
  unfold get_filtered_paths_step.
  repeat case_match; try set_solver.
  rewrite add_parents_union, (add_parents_union _ (_ ∪ ∅)). set_solver.
Qed.

Lemma foldl_get_filtered_paths_step spec included walk p :
  p ∈ foldl (get_filtered_paths_step spec) included walk
  ↔ p ∈ included ∨ ∃ e, e ∈ walk ∧ p ∈ get_filtered_paths_step spec ∅ e.
Proof.
  revert included. induction walk as [|e walk IH]; intros included; simpl.
  - set_solver.
  - rewrite IH, get_filtered_paths_step_union. set_solver.
Qed.

(** The set is the union of what the entries contribute. *)
Lemma elem_of_get_filtered_paths walk spec p :
  p ∈ get_filtered_paths walk spec
  ↔ ∃ e, e ∈ walk ∧ p ∈ get_filtered_paths_step spec ∅ e.
Proof.
  unfold get_filtered_paths. rewrite foldl_get_filtered_paths_step.
  set_solver.
Qed.

Lemma elem_of_get_filtered_paths_step spec e p :
  p ∈ get_filtered_paths_step spec ∅ e
  ↔ kept spec e = true
    ∧ p ∈ add_parents (PathLib.parent (rel e)) {[rel e]}.
Proof.
  unfold get_filtered_paths_step, kept.
  destruct (PathSpec.match_file spec (PathLib.str (rel e))),
    (PathSpec.match_file spec (PathLib.str (rel e) +:+ "/")),
    (named_in_root e output_filename), (is_file e), (is_binary e);
    simpl; try set_solver.
  rewrite (right_id_L ∅ (∪)). set_solver.
Qed.

End inclusion_set.

(* ===================================================================== *)
(** ** The matcher and its default rules *)
(* ===================================================================== *)

Section matcher.

(** The loop of [check_match_file] ends on the polarity of the last rule
    that matches. *)
Lemma check_match_file_last spec file :
  PathSpec.check_match_file spec file
  = last_matching_rule spec file ≫= PathSpec.include.
Proof.
  unfold PathSpec.check_match_file, last_matching_rule.
  induction spec as [|p spec IH] using rev_ind; [done|].
  rewrite foldl_snoc, reverse_snoc, filter_cons, IH.
  destruct (PathSpec.include p) as [incl|] eqn:Hincl.
  - destruct (PathSpec.pattern_matches p file) eqn:Hm.
    + rewrite decide_True by (split; [by eexists|done]). simpl. done.
    + rewrite decide_False by (intros [_ ?]; done). done.
  - rewrite decide_False by (intros [[? ?] _]; done). done.
Qed.

Lemma check_match_file_app user defaults file :
  PathSpec.check_match_file (user ++ defaults) file
  = foldl (λ out_include pattern,
             match PathSpec.include pattern with
             | Some incl =>
                 if PathSpec.pattern_matches pattern file then Some incl
                 else out_include
             | None => out_include
             end) (PathSpec.check_match_file user file) defaults.
Proof. unfold PathSpec.check_match_file. apply foldl_app. Qed.

Lemma from_lines_default_ignores :
  PathSpec.from_lines default_ignores = Some default_patterns.
Proof. vm_compute. reflexivity. Qed.

(** [load_ignore_file] compiles the user's lines and puts the compiled
    default rules behind them; it fails only where a user line does. *)
Lemma load_ignore_file_split ignore_file spec :
  load_ignore_file ignore_file = Some spec
  ↔ ∃ user, PathSpec.from_lines (default [] ignore_file) = Some user
            ∧ spec = user ++ default_patterns.
Proof.
  assert (load_ignore_file ignore_file
          = PathSpec.from_lines (default [] ignore_file ++ default_ignores))
    as -> by by destruct ignore_file.
  pose proof from_lines_default_ignores as Hd.
  unfold PathSpec.from_lines in *. rewrite filter_app. split.
  - intros (user & defaults & Hu & Hd' & ->)%mapM_Some%Forall2_app_inv_l.
    exists user. split; [by apply mapM_Some|]. f_equal.
    apply mapM_Some in Hd'. congruence.
  - intros (user & Hu%mapM_Some & ->). apply mapM_Some in Hd.
    apply mapM_Some. by apply Forall2_app.
Qed.

(** Rules that do not match leave the answer of the loop as it was. *)
Lemma check_match_file_no_match user rules file :
  Forall (λ rule, PathSpec.pattern_matches rule file = false) rules →
  PathSpec.check_match_file (user ++ rules) file
  = PathSpec.check_match_file user file.
Proof.
  rewrite check_match_file_app.
  generalize (PathSpec.check_match_file user file). intros acc Hnone.
  revert acc. induction Hnone as [|rule rules Hrule _ IH]; intros acc; [done|].
  simpl. rewrite Hrule. destruct (PathSpec.include rule); apply IH.
Qed.

(** The default rules decide the three default names, whatever rules
    precede them. *)
Lemma default_rules_win (user : PathSpec.t) :
  PathSpec.match_file (user ++ default_patterns) ".git/" = true
  ∧ PathSpec.match_file (user ++ default_patterns) ".lstignore" = true
  ∧ PathSpec.match_file (user ++ default_patterns) "lst.txt" = true.
Proof.
  unfold PathSpec.match_file. rewrite !check_match_file_app.
  repeat split; by vm_compute.
Qed.

End matcher.

(* ===================================================================== *)
(** ** The model on the examples of the specification *)
(* ===================================================================== *)

(** The rendering example: files [a/x.txt], [a/y.txt], [b/z.txt], no rule. *)
Example render_example :
  generate_tree_string "root" example_walk (spec_of [])
  = "root/
├── a
│   ├── x.txt
│   └── y.txt
└── b
    └── z.txt".
Proof. vm_compute. reflexivity. Qed.

(** Anchoring: [/build] matches a top-level [build], not [src/build]. *)
Example anchoring_example :
  PathSpec.match_file (spec_of ["/build"]) "build" = true
  ∧ PathSpec.match_file (spec_of ["/build"]) "build/" = true
  ∧ PathSpec.match_file (spec_of ["/build"]) "src/build" = false
  ∧ PathSpec.match_file (spec_of ["/build"]) "src/build/" = false.
Proof. repeat split; vm_compute; reflexivity. Qed.

(** Comment lines, blank lines and empty lines are no rules; a rule with a
    dangling escape is rejected. *)
Example rule_lines_example :
  (PathSpec.include <$> spec_of ["# comment"; "   "; ""; "*.tmp"; "!keep.tmp"])
  = [None; None; Some true; Some false; Some true; Some true; Some true]
  ∧ load_ignore_file (Some ["oops\"]) = None.
Proof. split; vm_compute; reflexivity. Qed.

(* ===================================================================== *)
(** ** Tree inclusion against document inclusion *)
(* ===================================================================== *)

Section tree_and_document.

Lemma strict_ancestor_parent a p :
  PathLib.strict_ancestor a p → a `prefix_of` PathLib.parent p.
Proof.
  intros [[k ->] Hne]. destruct k as [|x k _] using rev_ind.
  { destruct Hne. by rewrite app_nil_r. }
  rewrite app_assoc, parent_snoc. by apply prefix_app_r.
Qed.

Lemma prefix_parent_strict a p :
  a ≠ [] → a `prefix_of` PathLib.parent p → PathLib.strict_ancestor a p.
Proof.
  destruct p as [|x p _] using rev_ind.
  { intros Hne ->%prefix_nil_inv. done. }
  rewrite parent_snoc. intros _ [k ->]. split.
  - rewrite <-app_assoc. by apply prefix_app_r.
  - intros Heq%(f_equal length). rewrite !length_app in Heq. simpl in Heq. lia.
Qed.

Lemma NoDup_rel_inj (walk : list entry) e e' :
  NoDup (rel <$> walk) → e ∈ walk → e' ∈ walk → rel e = rel e' → e = e'.
Proof.
  induction walk as [|x walk IH]; [by intros _ ?%elem_of_nil|].
  rewrite fmap_cons, NoDup_cons.
  intros [Hx Hnd] [->|He]%elem_of_cons [->|He']%elem_of_cons Heq; try done.
  - destruct Hx. rewrite Heq. by apply list_elem_of_fmap_2.
  - destruct Hx. rewrite <-Heq. by apply list_elem_of_fmap_2.
  - by apply IH.
Qed.

(** In a walk of a real tree a file is in the inclusion set exactly when
    its own turn of the loop keeps it. *)
Lemma file_in_inclusion_set walk spec e :
  tree_shaped walk → e ∈ walk → is_file e = true →
  rel e ∈ get_filtered_paths walk spec ↔ kept spec e = true.
Proof.
  intros [Hnd Hdirs] He Hfile. rewrite elem_of_get_filtered_paths. split.
  - intros (e' & He' & [Hkept Hin]%elem_of_get_filtered_paths_step).
    apply add_parents_sound in Hin as [Heq%elem_of_singleton|[Hpre Hne]].
    + by rewrite (NoDup_rel_inj walk e e' Hnd He He' Heq).
    + apply prefix_parent_strict in Hpre; [|done].
      rewrite Forall_forall in Hdirs. specialize (Hdirs e He).
      rewrite Forall_forall in Hdirs. specialize (Hdirs e' He' Hpre).
      unfold is_file, is_dir in *. by destruct (kind_of e).
  - intros Hkept. exists e. split; [done|].
    apply elem_of_get_filtered_paths_step. split; [done|].
    rewrite add_parents_union. set_solver.
Qed.

Lemma elem_of_iter_source_files walk spec e :
  e ∈ iter_source_files walk spec ↔ e ∈ walk ∧ yields spec e = true.
Proof. unfold iter_source_files. rewrite list_elem_of_filter. tauto. Qed.

Lemma elem_of_emitted utf8 cp949 walk spec p content :
  (p, content) ∈ emitted utf8 cp949 walk spec
  ↔ ∃ e, e ∈ walk ∧ yields spec e = true ∧ is_binary e = false
         ∧ read_content utf8 cp949 e = Some content ∧ p = rel e.
Proof.
  unfold emitted. rewrite list_elem_of_omap. split.
  - intros (e & [He Hy]%elem_of_iter_source_files & Hsome).
    destruct (is_binary e) eqn:Hbin; [done|].
    destruct (read_content utf8 cp949 e) as [c|] eqn:Hread; [|done].
    simpl in Hsome. injection Hsome as <- <-. by exists e.
  - intros (e & He & Hy & Hbin & Hread & ->). exists e.
    rewrite elem_of_iter_source_files, Hbin, Hread. done.
Qed.



End tree_and_document.

(* ===================================================================== *)
(** ** Properties of the inclusion set and of the document *)
(* ===================================================================== *)




(** C2 (as amended).  A binary file that the ignore rules do not exclude is
    left out of the inclusion set of [get_filtered_paths] and out of the
    document alike: the binary test guards both. *)
Theorem binary_file_excluded spec walk e utf8 cp949 :
  tree_shaped walk → e ∈ walk → is_file e = true →
  PathSpec.match_file spec (PathLib.str (rel e)) = false →
  is_binary e = true →
  (rel e ∉ get_filtered_paths walk spec)
  ∧ (rel e ∉ (emitted utf8 cp949 walk spec).*1).
Proof.
  intros Hwalk He Hfile _ Hbin. split.
  - rewrite file_in_inclusion_set by done. unfold kept.
    rewrite Hbin, andb_false_r. done.
  - intros [[p content] [Hp Hin]]%list_elem_of_fmap. simpl in Hp.
    apply elem_of_emitted in Hin as (e' & He' & _ & Hbin' & _ & ->).
    destruct Hwalk as [Hnd _].
    rewrite (NoDup_rel_inj walk e e' Hnd He He' Hp) in *. congruence.
Qed.

Lemma binary_file_excluded_witness :
  let e := binary_file ["logo.png"] in
  let walk := [directory ["a"]; e; text_file ["a"; "x.txt"]] in
  tree_shaped walk ∧ e ∈ walk ∧ is_file e = true
  ∧ PathSpec.match_file (spec_of []) (PathLib.str (rel e)) = false
  ∧ is_binary e = true
  ∧ (rel e ∉ get_filtered_paths walk (spec_of []))
  ∧ (rel e ∉ (emitted (λ _, Some "text") (λ _, None) walk (spec_of [])).*1).
Proof.
  assert (tree_shaped [directory ["a"]; binary_file ["logo.png"];
                       text_file ["a"; "x.txt"]]) as Hwalk by by_compute.
  assert (binary_file ["logo.png"]
          ∈ [directory ["a"]; binary_file ["logo.png"];
             text_file ["a"; "x.txt"]]) as He
    by (apply list_elem_of_further, list_elem_of_here).
  assert (PathSpec.match_file (spec_of [])
            (PathLib.str (rel (binary_file ["logo.png"]))) = false) as Hm
    by (vm_compute; reflexivity).
  split; [exact Hwalk|]. split; [exact He|]. split; [reflexivity|].
  split; [exact Hm|]. split; [reflexivity|].
  exact (binary_file_excluded (spec_of []) _ (binary_file ["logo.png"])
           (λ _, Some "text") (λ _, None) Hwalk He eq_refl Hm eq_refl).
Defined.

(** C2 (as stated) fails: a binary file that no rule excludes is not in the
    inclusion set; with nothing else under the root the set is empty. *)
Lemma binary_file_not_in_tree :
  let e := binary_file ["logo.png"] in
  load_ignore_file None = Some (spec_of [])
  ∧ is_file e = true ∧ is_binary e = true
  ∧ PathSpec.match_file (spec_of []) (PathLib.str (rel e)) = false
  ∧ PathSpec.match_file (spec_of []) (PathLib.str (rel e) +:+ "/") = false
  ∧ (rel e ∉ get_filtered_paths [e] (spec_of []))
  ∧ get_filtered_paths [e] (spec_of []) = ∅.
Proof.
  repeat split; try (vm_compute; reflexivity); by_compute.
Qed.

(** C3, evaluated on the code.  Under the rule [temp/] the matcher does not
    match the path [temp] but matches [temp/]; [iter_source_files] yields
    the regular file [temp], while [get_filtered_paths], which also asks the
    matcher about the path followed by a slash, leaves it out. *)
Lemma directory_rule_hides_file :
  let e := text_file ["temp"] in
  let spec := spec_of ["temp/"] in
  load_ignore_file (Some ["temp/"]) = Some spec
  ∧ is_file e = true
  ∧ PathSpec.match_file spec "temp" = false
  ∧ PathSpec.match_file spec "temp/" = true
  ∧ iter_source_files [e] spec = [e]
  ∧ (rel e ∉ get_filtered_paths [e] spec)
  ∧ get_filtered_paths [e] spec = ∅.
Proof.
  repeat split; try (vm_compute; reflexivity); by_compute.
Qed.

(** C5.  Ancestor closure: with every path of the inclusion set, each of its
    strict ancestors other than the root itself is in the set. *)
Theorem ancestor_closure walk spec p a :
  normal_paths walk →
  p ∈ get_filtered_paths walk spec →
  PathLib.strict_ancestor a p → a ≠ [] →
  a ∈ get_filtered_paths walk spec.
Proof.
  intros Hnormal Hp Hanc Hne.
  apply elem_of_get_filtered_paths in Hp as (e & He & Hp).
  apply elem_of_get_filtered_paths_step in Hp as [Hkept Hp].
  apply elem_of_get_filtered_paths. exists e. split; [done|].
  apply elem_of_get_filtered_paths_step. split; [done|].
  assert ("." ∉ PathLib.parent (rel e)) as Hdot.
  { unfold normal_paths in Hnormal. rewrite Forall_forall in Hnormal.
    intros Hin. apply (Hnormal e He).
    destruct (parent_prefix (rel e)) as [k Hk]. rewrite Hk.
    apply elem_of_app. by left. }
  apply add_parents_complete; [done| |done].
  apply add_parents_sound in Hp as [->%elem_of_singleton|[Hpre _]].
  - by apply strict_ancestor_parent.
  - destruct Hanc as [Hanc _]. by etrans.
Qed.

Lemma ancestor_closure_witness :
  let walk := [text_file ["src"; "app"; "main.py"]] in
  normal_paths walk
  ∧ ["src"; "app"; "main.py"] ∈ get_filtered_paths walk (spec_of [])
  ∧ PathLib.strict_ancestor ["src"] ["src"; "app"; "main.py"]
  ∧ ["src"] ≠ []
  ∧ ["src"] ∈ get_filtered_paths walk (spec_of []).
Proof.
  assert (normal_paths [text_file ["src"; "app"; "main.py"]]) as Hn
    by by_compute.
  assert (["src"; "app"; "main.py"]
          ∈ get_filtered_paths [text_file ["src"; "app"; "main.py"]]
              (spec_of [])) as Hp by by_compute.
  assert (PathLib.strict_ancestor ["src"] ["src"; "app"; "main.py"]) as Ha
    by by_compute.
  assert (["src"] ≠ ([] : Path)) as Hne by discriminate.
  split; [exact Hn|]. split; [exact Hp|]. split; [exact Ha|].
  split; [exact Hne|].
  exact (ancestor_closure _ (spec_of []) _ ["src"] Hn Hp Ha Hne).
Defined.

(* ===================================================================== *)
(** ** Order independence and the sorted listing *)
(* ===================================================================== *)

Lemma sorted_StronglySorted listing :
  StronglySorted PathLib.le (sorted listing).
Proof. apply StronglySorted_merge_sort; apply _. Qed.

Lemma sorted_Permutation listing : sorted listing ≡ₚ listing.
Proof. apply merge_sort_Permutation. Qed.

(** Sorting forgets the order in which the set was listed. *)
Lemma sorted_listing_order l1 l2 : l1 ≡ₚ l2 → sorted l1 = sorted l2.
Proof.
  intros Hperm. apply (StronglySorted_unique PathLib.le).
  - apply sorted_StronglySorted.
  - apply sorted_StronglySorted.
  - by rewrite !sorted_Permutation.
Qed.

(** C6.  Order independence and determinism: two walks that enumerate the
    same entries give the same inclusion set and the same tree string, and
    two listings of one inclusion set render to the same string. *)
Theorem order_independence root_name spec walk1 walk2 :
  walk1 ≡ₚ walk2 →
  get_filtered_paths walk1 spec = get_filtered_paths walk2 spec
  ∧ generate_tree_string root_name walk1 spec
    = generate_tree_string root_name walk2 spec
  ∧ ∀ l1 l2, l1 ≡ₚ l2 → render_tree root_name l1 = render_tree root_name l2.
Proof.
  intros Hperm.
  assert (get_filtered_paths walk1 spec = get_filtered_paths walk2 spec)
    as Hset.
  { apply set_eq. intros p. rewrite !elem_of_get_filtered_paths.
    by setoid_rewrite Hperm. }
  split; [done|]. split.
  - unfold generate_tree_string. by rewrite Hset.
  - intros l1 l2 Hl. unfold render_tree.
    by rewrite (sorted_listing_order l1 l2).
Qed.

Lemma order_independence_witness :
  let walk1 := [text_file ["a"; "x.txt"]; text_file ["b"; "z.txt"]] in
  let walk2 := [text_file ["b"; "z.txt"]; text_file ["a"; "x.txt"]] in
  walk1 ≡ₚ walk2
  ∧ get_filtered_paths walk1 (spec_of []) = get_filtered_paths walk2 (spec_of [])
  ∧ generate_tree_string "root" walk1 (spec_of [])
    = generate_tree_string "root" walk2 (spec_of []).
Proof.
  assert ([text_file ["a"; "x.txt"]; text_file ["b"; "z.txt"]]
          ≡ₚ [text_file ["b"; "z.txt"]; text_file ["a"; "x.txt"]]) as Hperm
    by apply perm_swap.
  split; [exact Hperm|].
  pose proof (order_independence "root" (spec_of []) _ _ Hperm) as (H1 & H2 & _).
  split; [exact H1 | exact H2].
Defined.

Section sorted_listing.

Variable listing : list Path.
Hypothesis listing_NoDup : NoDup listing.

Lemma sorted_NoDup : NoDup (sorted listing).
Proof using listing_NoDup. by rewrite sorted_Permutation. Qed.

(** What lies beneath [d] comes after [d]. *)
Lemma descendant_later i j d e :
  sorted listing !! i = Some d → sorted listing !! j = Some e →
  PathLib.strict_ancestor d e → i < j.
Proof.
  intros Hi Hj [Hpre Hne]. destruct (decide (i < j)) as [|Hge]; [done|].
  destruct Hne. apply (anti_symm PathLib.le).
  - by apply le_prefix.
  - apply (StronglySorted_lookup_le (sorted listing) j i);
      [apply sorted_StronglySorted|lia|done..].
Qed.

(** The entry after a directory is its first descendant. *)
Lemma first_descendant_next i d e :
  sorted listing !! i = Some d → e ∈ listing →
  PathLib.strict_ancestor d e →
  ∃ c, sorted listing !! S i = Some c
       ∧ PathLib.strict_ancestor d c
       ∧ ∀ e', e' ∈ listing → PathLib.strict_ancestor d e' →
               PathLib.le c e'.
Proof using listing_NoDup.
  intros Hi He Hanc.
  assert (∀ e', e' ∈ listing → PathLib.strict_ancestor d e' →
                ∃ j, S i ≤ j ∧ sorted listing !! j = Some e') as Hlater.
  { intros e' He' Hanc'. rewrite <-sorted_Permutation in He'.
    apply list_elem_of_lookup in He' as [j Hj]. exists j. split; [|done].
    by apply (descendant_later i j d e'). }
  destruct (Hlater e He Hanc) as (j & Hij & Hj).
  destruct (lookup_lt_is_Some_2 (sorted listing) (S i)) as [c Hc].
  { apply lookup_lt_Some in Hj. lia. }
  assert (∀ e', e' ∈ listing → PathLib.strict_ancestor d e' →
                PathLib.le c e') as Hleast.
  { intros e' He' Hanc'. destruct (Hlater e' He' Hanc') as (j' & Hij' & Hj').
    by apply (StronglySorted_lookup_le (sorted listing) (S i) j');
      [apply sorted_StronglySorted|..]. }
  exists c. split; [done|]. split; [|done]. split.
  - apply (le_between_prefix d d c e); [done|apply Hanc| |by apply Hleast].
    apply (StronglySorted_lookup_le (sorted listing) i (S i));
      [apply sorted_StronglySorted|lia|done..].
  - intros ->. pose proof (NoDup_lookup _ _ _ _ sorted_NoDup Hi Hc). lia.
Qed.

(** Between two children of one parent there is nothing but what lies
    beneath that parent. *)
Lemma between_siblings i k j p r q :
  i ≤ k → k ≤ j →
  sorted listing !! i = Some p → sorted listing !! k = Some r →
  sorted listing !! j = Some q →
  p ≠ [] → PathLib.parent p = PathLib.parent q →
  PathLib.strict_ancestor (PathLib.parent p) r.
Proof.
  intros Hik Hkj Hi Hk Hj Hne Hparent.
  assert (PathLib.le p r) as Hpr.
  { by apply (StronglySorted_lookup_le (sorted listing) i k);
      [apply sorted_StronglySorted|..]. }
  assert (PathLib.le r q) as Hrq.
  { by apply (StronglySorted_lookup_le (sorted listing) k j);
      [apply sorted_StronglySorted|..]. }
  split.
  - apply (le_between_prefix _ p r q); [apply parent_prefix| |done..].
    rewrite Hparent. apply parent_prefix.
  - intros Heq. rewrite <-Heq in Hpr.
    assert (p = PathLib.parent p) as Hp.
    { apply (anti_symm PathLib.le); [done|].
      apply le_prefix, parent_prefix. }
    destruct p as [|x p _] using rev_ind; [done|].
    rewrite parent_snoc in Hp. apply (f_equal length) in Hp.
    rewrite length_app in Hp. simpl in Hp. lia.
Qed.

End sorted_listing.

(** C7 (as amended).  The renderer sorts the paths of the inclusion set
    lexicographically over their parts; in the sorted listing every
    directory with a descendant in the set is immediately followed by its
    first descendant, and whatever stands between two children of one parent
    lies beneath that parent. *)
Theorem sorted_listing_is_depth_first (listing : list Path) :
  NoDup listing →
  (sorted listing ≡ₚ listing ∧ StronglySorted PathLib.le (sorted listing))
  ∧ (∀ i d e,
       sorted listing !! i = Some d → e ∈ listing →
       PathLib.strict_ancestor d e →
       ∃ c, sorted listing !! S i = Some c
            ∧ PathLib.strict_ancestor d c
            ∧ ∀ e', e' ∈ listing → PathLib.strict_ancestor d e' →
                    PathLib.le c e')
  ∧ (∀ i k j p r q,
       i ≤ k → k ≤ j →
       sorted listing !! i = Some p → sorted listing !! k = Some r →
       sorted listing !! j = Some q →
       p ≠ [] → PathLib.parent p = PathLib.parent q →
       PathLib.strict_ancestor (PathLib.parent p) r).
Proof.
  intros Hnd. split; [|split].
  - split; [apply sorted_Permutation|apply sorted_StronglySorted].
  - intros i d e. by apply first_descendant_next.
  - intros i k j p r q. apply between_siblings.
Qed.

Lemma sorted_listing_is_depth_first_witness :
  let listing := [["b"]; ["a"; "x.txt"]; ["a"]; ["b"; "z.txt"]] in
  NoDup listing
  ∧ sorted listing = [["a"]; ["a"; "x.txt"]; ["b"]; ["b"; "z.txt"]]
  ∧ StronglySorted PathLib.le (sorted listing).
Proof.
  assert (NoDup [["b"]; ["a"; "x.txt"]; ["a"]; ["b"; "z.txt"]]) as Hnd
    by by_compute.
  split; [exact Hnd|]. split; [vm_compute; reflexivity|].
  exact (proj2 (proj1 (sorted_listing_is_depth_first _ Hnd))).
Defined.

(** C7 (as stated) fails: in the sorted inclusion set of a tree with the
    files [a/x.txt] and [b.txt], the siblings [a] and [b.txt] are separated
    by [a/x.txt], which has another parent. *)
Lemma siblings_not_contiguous :
  let walk := [text_file ["b.txt"]; text_file ["a"; "x.txt"]] in
  let sorted_paths := sorted (elements (get_filtered_paths walk (spec_of []))) in
  sorted_paths = [["a"]; ["a"; "x.txt"]; ["b.txt"]]
  ∧ PathLib.parent ["a"] = PathLib.parent ["b.txt"]
  ∧ PathLib.parent ["a"; "x.txt"] ≠ PathLib.parent ["a"].
Proof.
  split; [vm_compute; reflexivity|]. split; [reflexivity|]. discriminate.
Qed.

(* ===================================================================== *)
(** ** The default rules and the empty tree *)
(* ===================================================================== *)

(** C8 (as amended).  [load_ignore_file] compiles the user's rule lines and
    puts the three default rules behind them.  Whatever rules the user
    supplies, negations included, the resulting matcher excludes the [.git]
    directory, the [.lstignore] file and the default output name [lst.txt]:
    the default rules come last and the last matching rule decides.  No
    other rule is added: on a name that none of the three default rules
    matches, such as an output name chosen with [-o], the matcher answers
    as the user's rules alone do. *)
Theorem default_rules_take_precedence (user : PathSpec.t) :
  (∀ ignore_file spec,
     load_ignore_file ignore_file = Some spec
     ↔ ∃ compiled, PathSpec.from_lines (default [] ignore_file) = Some compiled
                   ∧ spec = compiled ++ default_patterns)
  ∧ PathSpec.match_file (user ++ default_patterns) ".git/" = true
  ∧ PathSpec.match_file (user ++ default_patterns) ".lstignore" = true
  ∧ PathSpec.match_file (user ++ default_patterns) "lst.txt" = true
  ∧ (∀ file,
       Forall (λ rule, PathSpec.pattern_matches rule
                         (PathSpec.normalize_file file) = false)
              default_patterns →
       PathSpec.match_file (user ++ default_patterns) file
       = PathSpec.match_file user file).
Proof.
  split; [apply load_ignore_file_split|].
  destruct (default_rules_win user) as (Hgit & Hign & Hout).
  split; [done|]. split; [done|]. split; [done|].
  intros file Hnone. unfold PathSpec.match_file.
  by rewrite check_match_file_no_match.
Qed.

Lemma default_rules_take_precedence_witness :
  let lines := ["!.git/"; "!.lstignore"; "!lst.txt"; "!*"] in
  let user := default [] (PathSpec.from_lines lines) in
  load_ignore_file (Some lines) = Some (user ++ default_patterns)
  ∧ PathSpec.match_file (user ++ default_patterns) ".git/" = true
  ∧ PathSpec.match_file (user ++ default_patterns) ".lstignore" = true
  ∧ PathSpec.match_file (user ++ default_patterns) "lst.txt" = true
  ∧ PathSpec.match_file (user ++ default_patterns) "out.txt"
    = PathSpec.match_file user "out.txt".
Proof.
  pose proof (default_rules_take_precedence
                (default [] (PathSpec.from_lines
                               ["!.git/"; "!.lstignore"; "!lst.txt"; "!*"])))
    as (Hload & Hgit & Hign & Hout & Hrest).
  split.
  { apply Hload. eexists. split; [vm_compute; reflexivity|reflexivity]. }
  split; [exact Hgit|]. split; [exact Hign|]. split; [exact Hout|].
  apply Hrest. by_compute.
Defined.

(** C8 (as stated) fails for an output file chosen with [-o]: the matcher is
    built without that name, so [out.txt] is not excluded; a file of that
    name under the root enters the inclusion set and is yielded for the
    document. *)
Lemma chosen_output_not_excluded :
  let e := text_file ["out.txt"] in
  load_ignore_file (Some []) = Some (spec_of [])
  ∧ PathSpec.match_file (spec_of []) "out.txt" = false
  ∧ rel e ∈ get_filtered_paths [e] (spec_of [])
  ∧ iter_source_files [e] (spec_of []) = [e].
Proof.
  repeat split; try (vm_compute; reflexivity); by_compute.
Qed.

Section strings.

Lemma string_app_cons x (a b : string) :
  String x a +:+ b = String x (a +:+ b).
Proof. reflexivity. Qed.

Lemma string_app_assoc (a b c : string) : (a +:+ b) +:+ c = a +:+ b +:+ c.
Proof.
  induction a as [|x a IH]; [done|]. by rewrite !string_app_cons, IH.
Qed.

Lemma string_app_nil_r (a : string) : a +:+ EmptyString = a.
Proof.
  induction a as [|x a IH]; [done|]. by rewrite string_app_cons, IH.
Qed.

Lemma rev_app_app (a b acc : string) :
  String.rev_app (a +:+ b) acc = String.rev_app b (String.rev_app a acc).
Proof.
  revert acc. induction a as [|x a IH]; intros acc; [done|].
  rewrite string_app_cons. simpl. apply IH.
Qed.

(** A text with a newline added ends with a newline. *)
Lemma endswith_app_LF (s : string) : Py.endswith (s +:+ Py.LF) Py.LF = true.
Proof.
  unfold Py.endswith, String.rev. rewrite rev_app_app.
  generalize (String.rev_app s EmptyString). intros r. by destruct r.
Qed.

(** Reading on from text without a newline only extends the current
    line. *)
Lemma splitlines_go_app cur s rest :
  Py.newline ∉ list_ascii_of_string s →
  Py.splitlines_go cur (s +:+ rest)
  = Py.splitlines_go (String.rev_app s cur) rest.
Proof.
  revert cur. induction s as [|c s IH]; intros cur Hnl; [done|].
  rewrite string_app_cons. simpl in *.
  apply not_elem_of_cons in Hnl as [Hc Hs].
  destruct (Ascii.eqb_spec c Py.newline) as [->|_]; [done|]. by apply IH.
Qed.

End strings.

(** C9 (as amended).  When the inclusion set is empty, [generate_tree_string]
    returns the two-line fallback: the root name followed by a slash, then
    the parenthesised notice that there is nothing to include, each closed
    by a newline; the result is never empty. *)
Theorem empty_inclusion_set_fallback root_name walk spec :
  get_filtered_paths walk spec = ∅ →
  generate_tree_string root_name walk spec
  = root_name +:+ "/" +:+ Py.LF
      +:+ "(포함할 파일 또는 디렉토리가 없습니다.)" +:+ Py.LF
  ∧ generate_tree_string root_name walk spec ≠ EmptyString
  ∧ (Py.newline ∉ list_ascii_of_string root_name →
     line_count (generate_tree_string root_name walk spec) = 2).
Proof.
  intros Hempty. unfold generate_tree_string.
  rewrite decide_True by done. unfold nothing_to_include.
  split; [done|]. split.
  - by destruct root_name.
  - intros Hnl. unfold line_count, Py.splitlines.
    by rewrite splitlines_go_app.
Qed.

Lemma empty_inclusion_set_fallback_witness :
  get_filtered_paths example_walk (spec_of ["*"]) = ∅
  ∧ line_count (generate_tree_string "root" example_walk (spec_of ["*"])) = 2.
Proof.
  assert (get_filtered_paths example_walk (spec_of ["*"]) = ∅) as Hempty
    by (vm_compute; reflexivity).
  split; [exact Hempty|].
  apply (empty_inclusion_set_fallback "root" example_walk (spec_of ["*"])
           Hempty).
  by_compute.
Defined.

(** C9 (as stated) fails: under the rule [*] over the example tree the
    fallback text has two lines, not one. *)
Lemma fallback_is_not_single_line :
  load_ignore_file (Some ["*"]) = Some (spec_of ["*"])
  ∧ get_filtered_paths example_walk (spec_of ["*"]) = ∅
  ∧ Py.splitlines (generate_tree_string "root" example_walk (spec_of ["*"]))
    = ["root/"; "(포함할 파일 또는 디렉토리가 없습니다.)"]
  ∧ line_count (generate_tree_string "root" example_walk (spec_of ["*"])) ≠ 1.
Proof.
  repeat split; try (vm_compute; reflexivity). vm_compute. discriminate.
Qed.

(* ===================================================================== *)
(** ** The document *)
(* ===================================================================== *)

Section document.

Variable utf8 cp949 : list byte → option string.

(** The four writes of one turn amount to appending one entry. *)
Lemma write_lst_step_entry out e content :
  is_binary e = false → read_content utf8 cp949 e = Some content →
  write_lst_step utf8 cp949 out e
  = out +:+ document_entry (rel e) content.
Proof.
  intros Hbin Hread. unfold write_lst_step, document_entry, write.
  rewrite Hbin, Hread.
  destruct (Py.endswith content Py.LF); simpl;
    by rewrite !string_app_assoc.
Qed.

Lemma write_lst_step_skip out e :
  is_binary e = true ∨ read_content utf8 cp949 e = None →
  write_lst_step utf8 cp949 out e = out.
Proof.
  unfold write_lst_step. intros [->| ->]; [done|]. by destruct (is_binary e).
Qed.

Lemma foldl_write_lst_step out (files : list entry) :
  foldl (write_lst_step utf8 cp949) out files
  = out +:+ document_entries
              (omap (λ e, if is_binary e then None
                          else content ← read_content utf8 cp949 e;
                               Some (rel e, content)) files).
Proof.
  revert out. induction files as [|e files IH]; intros out; simpl.
  { symmetry. apply string_app_nil_r. }
  rewrite IH. destruct (is_binary e) eqn:Hbin.
  { rewrite write_lst_step_skip by auto. done. }
  destruct (read_content utf8 cp949 e) as [content|] eqn:Hread; simpl.
  - rewrite (write_lst_step_entry out e content) by done.
    by rewrite string_app_assoc.
  - rewrite write_lst_step_skip by auto. done.
Qed.

End document.

(** C10.  The output file is the tree section followed by one entry per
    emitted file, and every entry is exactly: the opening tag line with the
    path (backslashes turned into slashes), the content with a newline
    added when and only when it does not end in one, the closing tag line,
    a blank line; the text between the tags always ends with a newline. *)
Theorem document_entry_format utf8 cp949 walk spec tree_string :
  write_lst utf8 cp949 walk spec tree_string
  = "File Tree:" +:+ Py.LF +:+ tree_string
      +:+ Py.LF +:+ Py.LF +:+ "---" +:+ Py.LF +:+ Py.LF
      +:+ document_entries (emitted utf8 cp949 walk spec)
  ∧ ∀ (rel : Path) (content : string),
      let tag := Py.replace Py.backslash Py.slash (PathLib.str rel) in
      ∃ body,
        document_entry rel content
        = "<" +:+ tag +:+ ">" +:+ Py.LF +:+ body
            +:+ "</" +:+ tag +:+ ">" +:+ Py.LF +:+ Py.LF
        ∧ Py.endswith body Py.LF = true
        ∧ body = if Py.endswith content Py.LF then content
                 else content +:+ Py.LF.
Proof.
  split.
  - unfold write_lst, emitted, write. rewrite foldl_write_lst_step.
    by rewrite !string_app_assoc.
  - intros rel content tag. unfold document_entry. fold tag.
    destruct (Py.endswith content Py.LF) eqn:Hend.
    + by exists content.
    + exists (content +:+ Py.LF). split; [done|]. split; [|done].
      apply endswith_app_LF.
Qed.

(* ===================================================================== *)
(** ** The matcher *)
(* ===================================================================== *)

(** C4.  The matcher runs through the rules in declaration order and
    answers with the polarity of the last rule that matches; a path that no
    rule matches is not ignored.  Under the rules [*.log] and [!keep.log]
    the file [keep.log] is included, [other.log] is excluded. *)
Theorem last_matching_rule_decides :
  (∀ spec file,
     PathSpec.match_file spec file
     = match last_matching_rule spec (PathSpec.normalize_file file) with
       | Some rule => default false (PathSpec.include rule)
       | None => false
       end)
  ∧ (∀ spec file,
       Forall (λ rule, PathSpec.pattern_matches rule
                         (PathSpec.normalize_file file) = false) spec →
       PathSpec.match_file spec file = false)
  ∧ (∀ spec rule file (incl : bool),
       PathSpec.include rule = Some incl →
       PathSpec.pattern_matches rule (PathSpec.normalize_file file) = true →
       PathSpec.match_file (spec ++ [rule]) file = incl)
  ∧ load_ignore_file (Some ["*.log"; "!keep.log"])
    = Some (spec_of ["*.log"; "!keep.log"])
  ∧ PathSpec.match_file (spec_of ["*.log"; "!keep.log"]) "keep.log" = false
  ∧ PathSpec.match_file (spec_of ["*.log"; "!keep.log"]) "other.log" = true
  ∧ PathSpec.match_file (spec_of ["*.log"; "!keep.log"]) "notes.txt" = false
  ∧ get_filtered_paths [text_file ["keep.log"]; text_file ["other.log"]]
      (spec_of ["*.log"; "!keep.log"])
    = {[ ["keep.log"] ]}.
Proof.
  assert (∀ spec file,
     PathSpec.match_file spec file
     = match last_matching_rule spec (PathSpec.normalize_file file) with
       | Some rule => default false (PathSpec.include rule)
       | None => false
       end) as Hlast.
  { intros spec file. unfold PathSpec.match_file.
    rewrite check_match_file_last.
    destruct (last_matching_rule _ _) as [rule|]; [|done]. simpl.
    by destruct (PathSpec.include rule). }
  split; [done|]. split; [|split].
  - intros spec file Hnone. rewrite Hlast. unfold last_matching_rule.
    destruct (filter _ (reverse spec)) as [|rule rules] eqn:Hf; [done|].
    assert (rule ∈ filter
              (λ p, is_Some (PathSpec.include p)
                    ∧ PathSpec.pattern_matches p
                        (PathSpec.normalize_file file) = true)
              (reverse spec)) as Hin by (rewrite Hf; left).
    apply list_elem_of_filter in Hin as [[_ Hm] Hrule].
    rewrite elem_of_reverse in Hrule. rewrite Forall_forall in Hnone. specialize (Hnone rule Hrule). congruence.
  - intros spec rule file incl Hincl Hm. rewrite Hlast.
    unfold last_matching_rule. rewrite reverse_snoc, filter_cons_True.
    + simpl. by rewrite Hincl.
    + split; [by eexists|done].
  - repeat split; vm_compute; reflexivity.
Qed.

(* ===================================================================== *)
(** ** Further properties of the inclusion set *)
(* ===================================================================== *)

(** X1.  The inclusion set is exactly the set of the kept files and of their
    ancestors below the root: a path is in it if and only if it is a
    non-empty prefix of the path of an entry that passes every test of the
    loop (not matched with or without a trailing slash, not the root's
    [lst.txt], a regular file, not binary). *)
Theorem inclusion_set_characterization walk spec p :
  normal_paths walk → below_root walk →
  p ∈ get_filtered_paths walk spec
  ↔ ∃ e, e ∈ walk ∧ kept spec e = true ∧ p ≠ [] ∧ p `prefix_of` rel e.
Proof.
  intros Hnormal Hbelow. rewrite elem_of_get_filtered_paths.
  unfold normal_paths, below_root in *. rewrite Forall_forall in Hnormal, Hbelow.
  split.
  - intros (e & He & [Hkept Hin]%elem_of_get_filtered_paths_step).
    exists e. split; [done|]. split; [done|].
    apply add_parents_sound in Hin as [->%elem_of_singleton|[Hpre Hne]].
    + split; [by apply Hbelow|done].
    + split; [done|]. etrans; [done|]. apply parent_prefix.
  - intros (e & He & Hkept & Hne & Hpre). exists e. split; [done|].
    apply elem_of_get_filtered_paths_step. split; [done|].
    destruct (decide (p = rel e)) as [->|Hneq].
    { rewrite add_parents_union. set_solver. }
    apply add_parents_complete; [|by apply strict_ancestor_parent|done].
    intros Hdot. apply (Hnormal e He).
    destruct (parent_prefix (rel e)) as [k Hk]. rewrite Hk.
    apply elem_of_app. by left.
Qed.

Lemma inclusion_set_characterization_witness :
  normal_paths example_walk ∧ below_root example_walk
  ∧ (["a"] ∈ get_filtered_paths example_walk (spec_of [])
     ↔ ∃ e, e ∈ example_walk ∧ kept (spec_of []) e = true
            ∧ ["a"] ≠ [] ∧ ["a"] `prefix_of` rel e).
Proof.
  assert (normal_paths example_walk) as Hn by by_compute.
  assert (below_root example_walk) as Hb by by_compute.
  split; [exact Hn|]. split; [exact Hb|].
  exact (inclusion_set_characterization example_walk (spec_of []) ["a"] Hn Hb).
Defined.

(** X2.  The inclusion set of a walk made of two stretches is the union of
    their inclusion sets; so meeting entries again changes nothing, and more
    entries never remove a path. *)
Theorem get_filtered_paths_app walk1 walk2 spec :
  get_filtered_paths (walk1 ++ walk2) spec
  = get_filtered_paths walk1 spec ∪ get_filtered_paths walk2 spec
  ∧ get_filtered_paths (walk1 ++ walk1) spec = get_filtered_paths walk1 spec
  ∧ get_filtered_paths walk1 spec ⊆ get_filtered_paths (walk1 ++ walk2) spec.
Proof.
  assert (∀ w1 w2, get_filtered_paths (w1 ++ w2) spec
                   = get_filtered_paths w1 spec ∪ get_filtered_paths w2 spec)
    as Happ.
  { intros w1 w2. apply set_eq. intros p.
    rewrite elem_of_union, !elem_of_get_filtered_paths.
    setoid_rewrite elem_of_app. naive_solver. }
  split; [apply Happ|]. split.
  - rewrite Happ. set_solver.
  - rewrite Happ. set_solver.
Qed.

(** X3.  The inclusion set is empty exactly when no entry of the walk passes
    the tests of the loop; the tree string is then the fallback text.  A
    root that holds only directories, binary files and ignored files
    renders as the fallback. *)
Theorem empty_inclusion_set_iff root_name walk spec :
  (get_filtered_paths walk spec = ∅
   ↔ Forall (λ e, kept spec e = false) walk)
  ∧ (Forall (λ e, kept spec e = false) walk →
     generate_tree_string root_name walk spec = nothing_to_include root_name).
Proof.
  assert (get_filtered_paths walk spec = ∅
          ↔ Forall (λ e, kept spec e = false) walk) as Hiff.
  { rewrite Forall_forall. split.
    - intros Hempty e He. destruct (kept spec e) eqn:Hkept; [|done].
      assert (rel e ∈ get_filtered_paths walk spec) as Hin.
      { apply elem_of_get_filtered_paths. exists e. split; [done|].
        apply elem_of_get_filtered_paths_step. split; [done|].
        rewrite add_parents_union. set_solver. }
      rewrite Hempty in Hin. set_solver.
    - intros Hnone. apply set_eq. intros p.
      rewrite elem_of_get_filtered_paths. split; [|set_solver].
      intros (e & He & [Hkept _]%elem_of_get_filtered_paths_step).
      rewrite (Hnone e He) in Hkept. done. }
  split; [done|]. intros Hnone%Hiff. unfold generate_tree_string.
  by rewrite decide_True.
Qed.

(** X4.  Whatever the matcher, even one without any rule, a regular file
    [lst.txt] directly under the root is neither put in the inclusion set
    nor yielded for the document, and [iter_source_files] never yields the
    root's [.lstignore]: both passes test these names themselves. *)
Theorem output_file_self_excluded walk spec e :
  tree_shaped walk → e ∈ walk → is_file e = true →
  rel e = ["lst.txt"] ∨ rel e = [".lstignore"] →
  (e ∉ iter_source_files walk spec)
  ∧ (rel e = ["lst.txt"] → rel e ∉ get_filtered_paths walk spec).
Proof.
  intros Hwalk He Hfile Hrel. split.
  - rewrite elem_of_iter_source_files. intros [_ Hy]. unfold yields in Hy.
    destruct (is_dir e); [done|].
    destruct (PathSpec.match_file spec (PathLib.str (rel e))); [done|].
    unfold named_in_root, output_filename in Hy.
    destruct Hrel as [Hrel|Hrel]; rewrite Hrel in Hy; simpl in Hy.
    + by destruct (bool_decide (("lst.txt" : string) = ".lstignore")).
    + done.
  - intros Hrel'. rewrite file_in_inclusion_set by done. unfold kept.
    unfold named_in_root, output_filename. rewrite Hrel'. simpl.
    by rewrite !andb_false_r.
Qed.

Lemma output_file_self_excluded_witness :
  let e := text_file ["lst.txt"] in
  let walk := [text_file ["main.py"]; e] in
  tree_shaped walk ∧ e ∈ walk ∧ is_file e = true
  ∧ (e ∉ iter_source_files walk [])
  ∧ (rel e ∉ get_filtered_paths walk []).
Proof.
  assert (tree_shaped [text_file ["main.py"]; text_file ["lst.txt"]])
    as Hwalk by by_compute.
  assert (text_file ["lst.txt"]
          ∈ [text_file ["main.py"]; text_file ["lst.txt"]]) as He
    by (apply list_elem_of_further, list_elem_of_here).
  pose proof (output_file_self_excluded _ [] (text_file ["lst.txt"])
                Hwalk He eq_refl (or_introl eq_refl)) as [H1 H2].
  split; [exact Hwalk|]. split; [exact He|]. split; [reflexivity|].
  split; [exact H1|exact (H2 eq_refl)].
Defined.

(** X5.  [is_binary] reads one block of 1024 bytes: what follows the first
    1024 bytes of a file never changes its answer, so a NUL byte further on
    goes unnoticed and such a file is treated as text. *)
Theorem is_binary_first_block p (head tail : list byte) :
  1024 ≤ length head →
  is_binary (file_with p (head ++ tail)) = is_binary (file_with p head)
  ∧ (NUL ∉ head → is_binary (file_with p (head ++ tail)) = false).
Proof.
  intros Hlen. unfold is_binary, file_with. simpl.
  rewrite take_app_le by done. split; [done|].
  intros Hnul. apply not_true_is_false. intros Hex.
  apply existsb_exists in Hex as (b & Hb & Heq).
  apply byte_dec_bl in Heq as <-. apply Hnul.
  apply list_elem_of_In in Hb. rewrite <-(take_drop 1024 head).
  apply elem_of_app. by left.
Qed.

Lemma is_binary_first_block_witness :
  1024 ≤ length (replicate 1024 x61)
  ∧ is_binary (file_with ["big.txt"] (replicate 1024 x61 ++ [x00])) = false.
Proof.
  assert (1024 ≤ length (replicate 1024 x61)) as Hlen
    by (rewrite length_replicate; lia).
  split; [exact Hlen|].
  apply (is_binary_first_block ["big.txt"] _ [x00] Hlen).
  intros [Hx _]%elem_of_replicate. unfold NUL in Hx. discriminate Hx.
Defined.

(* ===================================================================== *)
(** ** Further properties of the document *)
(* ===================================================================== *)

(** X6.  The document follows the walk: the emitted paths are a subsequence
    of the walk's paths, in walk order, and two walks of the same entries
    emit the same entries up to order.  Unlike the tree, the document is not
    sorted. *)
Theorem document_follows_walk utf8 cp949 spec walk :
  (emitted utf8 cp949 walk spec).*1 `sublist_of` rel <$> walk
  ∧ ∀ walk', walk ≡ₚ walk' →
             emitted utf8 cp949 walk spec ≡ₚ emitted utf8 cp949 walk' spec.
Proof.
  split.
  - unfold emitted, iter_source_files.
    induction walk as [|e walk IH]; [done|].
    rewrite filter_cons, fmap_cons.
    destruct (decide (yields spec e = true)); [|by apply sublist_cons].
    simpl. destruct (is_binary e); [by apply sublist_cons|].
    destruct (read_content utf8 cp949 e); simpl.
    + by apply sublist_skip.
    + by apply sublist_cons.
  - intros walk' Hperm. unfold emitted, iter_source_files. by rewrite Hperm.
Qed.

Section tags.

Lemma replace_app a b (s1 s2 : string) :
  Py.replace a b (s1 +:+ s2) = Py.replace a b s1 +:+ Py.replace a b s2.
Proof.
  induction s1 as [|c s1 IH]; [done|].
  rewrite string_app_cons. simpl. by rewrite IH, string_app_cons.
Qed.




Lemma join_cons_cons sep (x y : string) l :
  Py.join sep (x :: y :: l) = x +:+ sep +:+ Py.join sep (y :: l).
Proof. reflexivity. Qed.


End tags.


(** X8.  Tags are not unique: a file whose name holds a backslash gets the
    tag of the file that the backslash, read as a separator, would name. *)
Theorem document_tag_collision (a b : string) :
  [a +:+ String Py.backslash b] ≠ [a; b]
  ∧ document_tag [a +:+ String Py.backslash b] = document_tag [a; b].
Proof.
  split; [done|]. unfold document_tag, PathLib.str.
  change (Py.join "/" [a +:+ String Py.backslash b])
    with (a +:+ String Py.backslash b).
  change (Py.join "/" [a; b]) with (a +:+ "/" +:+ b).
  rewrite !replace_app. done.
Qed.

(* ===================================================================== *)
(** ** Further properties of the rendered tree *)
(* ===================================================================== *)

Section tree_lines.

Lemma foldl_snoc_fmap {A B} (g : A → B) (init : list B) (l : list A) :
  foldl (λ acc x, acc ++ [g x]) init l = init ++ (g <$> l).
Proof.
  revert init. induction l as [|x l IH]; intros init; simpl.
  - by rewrite app_nil_r.
  - rewrite IH. by rewrite <-app_assoc.
Qed.

(** The tree is the root line followed by one line per sorted path. *)
Lemma render_tree_as_lines root_name listing :
  render_tree root_name listing
  = Py.join Py.LF
      ((root_name +:+ "/")
         :: (tree_line (last_items_for listing) <$> sorted listing)).
Proof.
  unfold render_tree, last_items_for, tree_line, tree_connector.
  by rewrite (foldl_snoc_fmap
                (λ path, tree_prefix _ path
                         +:+ (if decide (path ∈ _) then _ else _)
                         +:+ PathLib.name path)).
Qed.

Lemma parent_map_step_lookup parent_map path P :
  parent_map_step parent_map path !! P
  = if decide (PathLib.parent path = P)
    then Some (default [] (parent_map !! P) ++ [path])
    else parent_map !! P.
Proof.
  unfold parent_map_step. rewrite lookup_alter.
  destruct (decide (PathLib.parent path = P)) as [<-|Hne].
  - destruct (parent_map !! PathLib.parent path) as [children|] eqn:Hlook.
    + by rewrite Hlook.
    + by rewrite lookup_insert_eq.
  - destruct (parent_map !! PathLib.parent path); [done|].
    by rewrite lookup_insert_ne.
Qed.

(** After the first loop every parent is mapped to its children, in the
    order of the listing. *)
Lemma parent_map_lookup (l : list Path) parent_map P :
  foldl parent_map_step parent_map l !! P
  = match filter (λ q, PathLib.parent q = P) l with
    | [] => parent_map !! P
    | children => Some (default [] (parent_map !! P) ++ children)
    end.
Proof.
  revert parent_map. induction l as [|x l IH]; intros parent_map; [done|].
  simpl. rewrite IH, parent_map_step_lookup, filter_cons.
  destruct (decide (PathLib.parent x = P)) as [Heq|Hne]; simpl.
  - destruct (filter _ l); simpl; [done|]. by rewrite <-app_assoc.
  - done.
Qed.

(** The second loop collects the last child of every parent. *)
Lemma elem_of_last_items_of (parent_map : gmap Path (list Path)) x :
  x ∈ last_items_of parent_map
  ↔ ∃ P children, parent_map !! P = Some children ∧ last children = Some x.
Proof.
  unfold last_items_of. revert x.
  apply (map_fold_weak_ind (λ acc m,
    ∀ x, x ∈ acc ↔ ∃ P children, m !! P = Some children
                                  ∧ last children = Some x)).
  - intros x. split; [set_solver|]. intros (P & c & Hl & _).
    by rewrite lookup_empty in Hl.
  - intros P children m acc Hfresh IH x.
    assert (x ∈ match last children with
                | Some child => {[child]} ∪ acc
                | None => acc
                end ↔ last children = Some x ∨ x ∈ acc) as ->.
    { destruct (last children); set_solver. }
    rewrite IH. split.
    + intros [Hlast|(P' & c & Hl & Hlast)].
      * exists P, children. by rewrite lookup_insert_eq.
      * exists P', c. rewrite lookup_insert_ne; [done|]. congruence.
    + intros (P' & c & Hl & Hlast).
      destruct (decide (P = P')) as [<-|Hne].
      * rewrite lookup_insert_eq in Hl. left. congruence.
      * rewrite lookup_insert_ne in Hl by done. right. by exists P', c.
Qed.

Lemma StronglySorted_filter (P : Path → Prop) `{!∀ x, Decision (P x)} l :
  StronglySorted PathLib.le l → StronglySorted PathLib.le (filter P l).
Proof.
  induction 1 as [|x l Hl IH Hx]; [constructor|].
  rewrite filter_cons. destruct (decide (P x)); [|done].
  constructor; [done|]. apply Forall_forall. intros y [_ Hy]%list_elem_of_filter.
  rewrite Forall_forall in Hx. by apply Hx.
Qed.

(** [last_items] holds exactly the greatest child of every parent. *)
Lemma elem_of_last_items_for listing path :
  path ∈ last_items_for listing ↔ greatest_sibling listing path.
Proof.
  unfold last_items_for, greatest_sibling. rewrite elem_of_last_items_of.
  assert (∀ P, foldl parent_map_step ∅ (sorted listing) !! P
               = match filter (λ q, PathLib.parent q = P) (sorted listing) with
                 | [] => None
                 | children => Some children
                 end) as Hlookup.
  { intros P. rewrite parent_map_lookup, lookup_empty.
    by destruct (filter _ (sorted listing)). }
  assert (∀ P, StronglySorted PathLib.le
                 (filter (λ q, PathLib.parent q = P) (sorted listing)))
    as Hsorted.
  { intros P. apply StronglySorted_filter, sorted_StronglySorted. }
  assert (∀ P q, q ∈ filter (λ q, PathLib.parent q = P) (sorted listing)
                 ↔ PathLib.parent q = P ∧ q ∈ listing) as Hfilter.
  { intros P q. by rewrite list_elem_of_filter, sorted_Permutation. }
  split.
  - intros (P & children & Hchildren & Hlast). rewrite Hlookup in Hchildren.
    assert (children = filter (λ q, PathLib.parent q = P) (sorted listing))
      as ->.
    { destruct (filter _ (sorted listing)); [done|]. by injection Hchildren. }
    apply last_Some in Hlast as [before Hbefore].
    assert (PathLib.parent path = P ∧ path ∈ listing) as [HP Hin].
    { apply Hfilter. rewrite Hbefore. apply elem_of_app. right. left. }
    split; [done|]. intros q Hq Hparent.
    assert (q ∈ before ++ [path]) as [Hq'|Hq']%elem_of_app.
    { rewrite <-Hbefore. apply Hfilter. split; [congruence|done]. }
    + apply (StronglySorted_app_1_elem_of PathLib.le before [path]);
        [by rewrite <-Hbefore|done|left].
    + apply list_elem_of_singleton in Hq' as ->. reflexivity.
  - intros [Hin Hmax].
    assert (path ∈ filter (λ q, PathLib.parent q = PathLib.parent path)
                     (sorted listing)) as Hpath by by apply Hfilter.
    exists (PathLib.parent path). rewrite Hlookup.
    destruct (filter _ (sorted listing)) as [|c children] eqn:Hf.
    { by apply elem_of_nil in Hpath. }
    exists (c :: children). split; [done|].
    destruct (last (c :: children)) as [x|] eqn:Hlast;
      [|by apply last_None in Hlast].
    f_equal. apply last_Some in Hlast as [before Hbefore].
    assert (x ∈ filter (λ q, PathLib.parent q = PathLib.parent path)
                  (sorted listing)) as [Hxp Hx]%Hfilter.
    { rewrite Hf, Hbefore. apply elem_of_app. right. left. }
    apply (anti_symm PathLib.le); [by apply Hmax|].
    rewrite Hbefore in Hpath. apply elem_of_app in Hpath as [Hp|Hp].
    + apply (StronglySorted_app_1_elem_of PathLib.le before [x]);
        [|done|left]. rewrite <-Hbefore, <-Hf. apply Hsorted.
    + apply list_elem_of_singleton in Hp as ->. reflexivity.
Qed.

End tree_lines.

(** X9.  A non-empty inclusion set renders as the root line followed by one
    line per path of the set, in sorted order; each line is the
    indentation, the connector and the last part of its path. *)
Theorem tree_has_one_line_per_path root_name walk spec :
  get_filtered_paths walk spec ≠ ∅ →
  let listing := elements (get_filtered_paths walk spec) in
  let lines := tree_line (last_items_for listing) <$> sorted listing in
  generate_tree_string root_name walk spec
  = Py.join Py.LF ((root_name +:+ "/") :: lines)
  ∧ length lines = size (get_filtered_paths walk spec)
  ∧ ∀ i path, sorted listing !! i = Some path →
      lines !! i
      = Some (tree_prefix (last_items_for listing) path
              +:+ tree_connector (last_items_for listing) path
              +:+ PathLib.name path).
Proof.
  intros Hne listing lines. split; [|split].
  - unfold generate_tree_string. rewrite decide_False by done.
    apply render_tree_as_lines.
  - unfold lines. rewrite length_fmap.
    unfold listing. by rewrite sorted_Permutation.
  - intros i path Hi. unfold lines. rewrite list_lookup_fmap, Hi. done.
Qed.

Lemma tree_has_one_line_per_path_witness :
  get_filtered_paths example_walk (spec_of []) ≠ ∅
  ∧ generate_tree_string "root" example_walk (spec_of [])
    = Py.join Py.LF
        ("root/"
           :: (tree_line
                 (last_items_for
                    (elements (get_filtered_paths example_walk (spec_of []))))
               <$> sorted
                     (elements (get_filtered_paths example_walk (spec_of []))))).
Proof.
  assert (get_filtered_paths example_walk (spec_of []) ≠ ∅) as Hne
    by by_compute.
  split; [exact Hne|].
  exact (proj1 (tree_has_one_line_per_path "root" example_walk (spec_of [])
                  Hne)).
Defined.

(** X10.  The corner connector marks exactly the last child: a path gets
    [└── ] if and only if it is the greatest, in the sort order, of the
    paths of the set that share its parent; every other path gets [├── ]. *)
Theorem corner_marks_last_child (listing : list Path) (path : Path) :
  (tree_connector (last_items_for listing) path = "└── "
   ↔ greatest_sibling listing path)
  ∧ (tree_connector (last_items_for listing) path = "├── "
     ↔ ¬ greatest_sibling listing path).
Proof.
  unfold tree_connector. rewrite <-elem_of_last_items_for.
  destruct (decide (path ∈ last_items_for listing)); split; split;
    try done; intros; exfalso; by eauto.
Qed.

Section indentation.

Variable last_items : gset Path.

Lemma tree_prefix_steps (path : Path) a acc n :
  n ≤ length path →
  foldl (λ prefix j,
           if decide (take (j + 1) (path ++ [a]) ∈ last_items)
           then prefix +:+ "    " else prefix +:+ "│   ") acc (seq 0 n)
  = foldl (λ prefix j,
             if decide (take (j + 1) path ∈ last_items)
             then prefix +:+ "    " else prefix +:+ "│   ") acc (seq 0 n).
Proof.
  induction n as [|n IH]; [done|]. intros Hn.
  rewrite seq_S, !foldl_app, IH by lia. simpl.
  by rewrite take_app_le by lia.
Qed.

(** A child is indented like its parent, then by four spaces when the
    parent is a last child and by a bar and three spaces otherwise. *)
Lemma tree_prefix_snoc (parent : Path) a :
  parent ≠ [] →
  tree_prefix last_items (parent ++ [a])
  = tree_prefix last_items parent
      +:+ (if decide (parent ∈ last_items) then "    " else "│   ").
Proof.
  intros Hne. unfold tree_prefix. rewrite length_app. simpl.
  replace (length parent + 1 - 1) with (S (length parent - 1))
    by (destruct parent; [done|simpl; lia]).
  rewrite seq_S, foldl_app, tree_prefix_steps by lia. simpl.
  replace (length parent - 1 + 1) with (length parent)
    by (destruct parent; [done|simpl; lia]).
  rewrite take_app_length. repeat case_decide; done.
Qed.

End indentation.

(** X11.  Indentation follows the ancestors: an entry directly under the
    root is not indented, and a deeper entry is indented like its parent,
    followed by four spaces when the parent is the last child of its own
    parent and by a vertical bar and three spaces when it is not. *)
Theorem indentation_follows_ancestors (listing : list Path) :
  (∀ a, tree_prefix (last_items_for listing) [a] = EmptyString)
  ∧ (∀ parent a, parent ≠ [] → greatest_sibling listing parent →
       tree_prefix (last_items_for listing) (parent ++ [a])
       = tree_prefix (last_items_for listing) parent +:+ "    ")
  ∧ (∀ parent a, parent ≠ [] → ¬ greatest_sibling listing parent →
       tree_prefix (last_items_for listing) (parent ++ [a])
       = tree_prefix (last_items_for listing) parent +:+ "│   ").
Proof.
  split; [done|]. split.
  - intros parent a Hne Hlast%elem_of_last_items_for.
    rewrite tree_prefix_snoc by done. by rewrite decide_True.
  - intros parent a Hne Hlast. rewrite tree_prefix_snoc by done.
    rewrite decide_False; [done|]. by rewrite elem_of_last_items_for.
Qed.

Section tree_order.

(** With a path the inclusion set holds every non-empty prefix of it. *)
Lemma prefix_in_inclusion_set walk spec p a :
  normal_paths walk → p ∈ get_filtered_paths walk spec →
  a `prefix_of` p → a ≠ [] → a ∈ get_filtered_paths walk spec.
Proof.
  intros Hnormal Hp Hpre Hne.
  destruct (decide (a = p)) as [->|Hneq]; [done|].
  apply elem_of_get_filtered_paths in Hp as (e & He & Hp).
  apply elem_of_get_filtered_paths_step in Hp as [Hkept Hp].
  apply elem_of_get_filtered_paths. exists e. split; [done|].
  apply elem_of_get_filtered_paths_step. split; [done|].
  apply add_parents_complete; [| |done].
  - unfold normal_paths in Hnormal. rewrite Forall_forall in Hnormal.
    intros Hin. apply (Hnormal e He).
    destruct (parent_prefix (rel e)) as [k Hk]. rewrite Hk.
    apply elem_of_app. by left.
  - apply add_parents_sound in Hp as [->%elem_of_singleton|[Hp _]].
    + by apply strict_ancestor_parent.
    + by etrans.
Qed.

End tree_order.

(** X12.  Every line of the tree comes after the line of its parent: in the
    sorted inclusion set, an entry that is not directly under the root is
    preceded by its parent directory. *)
Theorem parent_line_precedes walk spec i p :
  normal_paths walk →
  sorted (elements (get_filtered_paths walk spec)) !! i = Some p →
  PathLib.parent p ≠ [] →
  ∃ j, j < i
       ∧ sorted (elements (get_filtered_paths walk spec)) !! j
         = Some (PathLib.parent p).
Proof.
  intros Hnormal Hi Hparent.
  assert (PathLib.strict_ancestor (PathLib.parent p) p) as Hanc.
  { split; [apply parent_prefix|]. intros Heq.
    destruct p as [|x p _] using rev_ind; [done|].
    rewrite parent_snoc in Heq. apply (f_equal length) in Heq.
    rewrite length_app in Heq. simpl in Heq. lia. }
  assert (p ∈ get_filtered_paths walk spec) as Hp.
  { apply elem_of_elements. rewrite <-sorted_Permutation.
    by eapply list_elem_of_lookup_2. }
  assert (PathLib.parent p
          ∈ sorted (elements (get_filtered_paths walk spec))) as Hin.
  { rewrite sorted_Permutation. apply elem_of_elements.
    apply (prefix_in_inclusion_set walk spec p); [done..|apply Hanc|done]. }
  apply list_elem_of_lookup in Hin as [j Hj]. exists j. split; [|done].
  by apply (descendant_later (elements (get_filtered_paths walk spec)) j i
              (PathLib.parent p) p).
Qed.

Lemma parent_line_precedes_witness :
  let walk := [text_file ["zoo"; "a.txt"]; text_file ["b.txt"]] in
  normal_paths walk
  ∧ sorted (elements (get_filtered_paths walk (spec_of []))) !! 2
    = Some ["zoo"; "a.txt"]
  ∧ PathLib.parent ["zoo"; "a.txt"] ≠ []
  ∧ ∃ j, j < 2
         ∧ sorted (elements (get_filtered_paths walk (spec_of []))) !! j
           = Some (PathLib.parent ["zoo"; "a.txt"]).
Proof.
  assert (normal_paths [text_file ["zoo"; "a.txt"]; text_file ["b.txt"]])
    as Hn by by_compute.
  assert (sorted (elements (get_filtered_paths
                              [text_file ["zoo"; "a.txt"]; text_file ["b.txt"]]
                              (spec_of []))) !! 2
          = Some ["zoo"; "a.txt"]) as Hi by (vm_compute; reflexivity).
  assert (PathLib.parent ["zoo"; "a.txt"] ≠ []) as Hp by discriminate.
  split; [exact Hn|]. split; [exact Hi|]. split; [exact Hp|].
  exact (parent_line_precedes _ (spec_of []) 2 ["zoo"; "a.txt"] Hn Hi Hp).
Defined.

Section line_ends.

Lemma rev_app_acc (s acc1 acc2 : string) :
  String.rev_app s (acc1 +:+ acc2) = String.rev_app s acc1 +:+ acc2.
Proof.
  revert acc1. induction s as [|c s IH]; intros acc1; [done|].
  simpl. by rewrite <-IH.
Qed.

Lemma rev_cons_not_empty c (s : string) :
  ∃ d r, String.rev_app (String c s) EmptyString = String d r.
Proof.
  simpl. change (String c EmptyString) with (EmptyString +:+ String c EmptyString).
  rewrite rev_app_acc. destruct (String.rev_app s EmptyString) as [|d r].
  - by exists c, EmptyString.
  - exists d, (r +:+ String c EmptyString). by rewrite string_app_cons.
Qed.

Lemma prefix_LF d (y : string) :
  String.prefix Py.LF (String d y)
  = if ascii_dec Py.newline d then true else false.
Proof.
  change (String.prefix Py.LF (String d y))
    with (if ascii_dec Py.newline d then String.prefix EmptyString y
          else false).
  destruct (ascii_dec Py.newline d); [|done]. by destruct y.
Qed.

(** Whether a text ends with a newline is decided by its non-empty end. *)
Lemma endswith_app_r (a b : string) :
  b ≠ EmptyString → Py.endswith (a +:+ b) Py.LF = Py.endswith b Py.LF.
Proof.
  intros Hb. destruct b as [|c b]; [done|].
  unfold Py.endswith, String.rev. rewrite rev_app_app.
  change (String.rev_app a EmptyString)
    with (EmptyString +:+ String.rev_app a EmptyString).
  rewrite rev_app_acc.
  destruct (rev_cons_not_empty c b) as (d & r & ->).
  rewrite string_app_cons.
  change (String.rev_app Py.LF EmptyString) with Py.LF.
  by rewrite !prefix_LF.
Qed.

Lemma join_snoc sep (l : list string) x :
  l ≠ [] → Py.join sep (l ++ [x]) = Py.join sep l +:+ sep +:+ x.
Proof.
  induction l as [|y [|z l] IH]; [done|done|]. intros _.
  change ((y :: z :: l) ++ [x]) with (y :: (z :: l) ++ [x]).
  change ((z :: l) ++ [x]) with (z :: l ++ [x]) at 1.
  rewrite join_cons_cons. change (z :: l ++ [x]) with ((z :: l) ++ [x]).
  rewrite IH by done. rewrite join_cons_cons.
  by rewrite !string_app_assoc.
Qed.

Lemma tree_line_end last_items path :
  Py.endswith (PathLib.name path) Py.LF = false →
  tree_line last_items path ≠ EmptyString
  ∧ Py.endswith (tree_line last_items path) Py.LF = false.
Proof.
  intros Hname. unfold tree_line.
  assert (∃ c rest, tree_connector last_items path +:+ PathLib.name path
                    = String c rest
                    ∧ Py.endswith (String c rest) Py.LF = false)
    as (c & rest & Heq & Hend).
  { destruct (PathLib.name path) as [|d name] eqn:Hn.
    - unfold tree_connector. case_decide; by eexists _, _.
    - assert (∃ c rest, tree_connector last_items path = String c rest)
        as (c & rest & Hc).
      { unfold tree_connector. case_decide; by eexists _, _. }
      exists c, (rest +:+ String d name). split.
      + by rewrite Hc, string_app_cons.
      + rewrite <-string_app_cons, endswith_app_r; done. }
  rewrite Heq. split.
  - destruct (tree_prefix last_items path); [done|].
    by rewrite string_app_cons.
  - by rewrite endswith_app_r.
Qed.

End line_ends.

(** X13.  The fallback text ends with a newline, a rendered tree does not:
    when the inclusion set is not empty and no name in it ends with a
    newline, the tree string ends with the last part of its last path. *)
Theorem tree_string_trailing_newline root_name walk spec :
  (get_filtered_paths walk spec = ∅ →
   Py.endswith (generate_tree_string root_name walk spec) Py.LF = true)
  ∧ (get_filtered_paths walk spec ≠ ∅ →
     (∀ p, p ∈ get_filtered_paths walk spec →
           Py.endswith (PathLib.name p) Py.LF = false) →
     Py.endswith (generate_tree_string root_name walk spec) Py.LF = false).
Proof.
  split.
  - intros Hempty. unfold generate_tree_string. rewrite decide_True by done.
    unfold nothing_to_include. rewrite <-!string_app_assoc.
    apply endswith_app_LF.
  - intros Hne Hnames. unfold generate_tree_string.
    rewrite decide_False by done. rewrite render_tree_as_lines.
    destruct (sorted (elements (get_filtered_paths walk spec)))
      as [|q l _] eqn:Hsorted using rev_ind.
    { destruct Hne. apply set_eq. intros p. split; [|set_solver].
      intros Hp%elem_of_elements. rewrite <-sorted_Permutation, Hsorted in Hp.
      by apply elem_of_nil in Hp. }
    assert (q ∈ get_filtered_paths walk spec) as Hq.
    { apply elem_of_elements. rewrite <-sorted_Permutation, Hsorted.
      apply elem_of_app. right. left. }
    destruct (tree_line_end
                (last_items_for (elements (get_filtered_paths walk spec))) q
                (Hnames q Hq)) as [Hline Hend].
    set (li := last_items_for _) in *. rewrite fmap_app.
    change (tree_line li <$> [q]) with [tree_line li q].
    rewrite app_comm_cons, join_snoc by done.
    rewrite endswith_app_r; [by rewrite endswith_app_r|].
    by destruct Py.LF.
Qed.

(* ===================================================================== *)
(** ** Unreadable files and directory entries *)
(* ===================================================================== *)

(** X14.  A file that cannot be opened or read is treated as binary: it
    appears neither in the inclusion set nor in the document, whatever the
    decoders would have made of it. *)
Theorem unreadable_file_is_binary utf8 cp949 spec walk e :
  tree_shaped walk → e ∈ walk → kind_of e = RegularFile None →
  is_binary e = true
  ∧ (rel e ∉ get_filtered_paths walk spec)
  ∧ (rel e ∉ (emitted utf8 cp949 walk spec).*1).
Proof.
  intros Hwalk He Hkind.
  assert (is_binary e = true) as Hbin by (unfold is_binary; by rewrite Hkind).
  assert (is_file e = true) as Hfile by (unfold is_file; by rewrite Hkind).
  split; [done|]. split.
  - rewrite file_in_inclusion_set by done. unfold kept.
    rewrite Hbin, andb_false_r. done.
  - intros [[p content] [Hp Hin]]%list_elem_of_fmap. simpl in Hp.
    apply elem_of_emitted in Hin as (e' & He' & _ & Hbin' & _ & ->).
    destruct Hwalk as [Hnd _].
    rewrite (NoDup_rel_inj walk e e' Hnd He He' Hp) in *. congruence.
Qed.

Lemma unreadable_file_is_binary_witness :
  let e := mkEntry ["secret.key"] (RegularFile None) in
  let walk := [text_file ["main.py"]; e] in
  tree_shaped walk ∧ e ∈ walk
  ∧ is_binary e = true
  ∧ (rel e ∉ get_filtered_paths walk (spec_of []))
  ∧ (rel e ∉ (emitted (λ _, Some "x") (λ _, None) walk (spec_of [])).*1).
Proof.
  assert (tree_shaped [text_file ["main.py"];
                       mkEntry ["secret.key"] (RegularFile None)])
    as Hwalk by by_compute.
  assert (mkEntry ["secret.key"] (RegularFile None)
          ∈ [text_file ["main.py"];
             mkEntry ["secret.key"] (RegularFile None)]) as He
    by (apply list_elem_of_further, list_elem_of_here).
  split; [exact Hwalk|]. split; [exact He|].
  exact (unreadable_file_is_binary (λ _, Some "x") (λ _, None) (spec_of [])
           _ (mkEntry ["secret.key"] (RegularFile None)) Hwalk He eq_refl).
Defined.

(** X15.  Directory entries contribute nothing by themselves: the
    inclusion set of a walk is the inclusion set of its regular files, and
    directories enter it only as ancestors of kept files, so an empty
    directory never shows in the tree. *)
Theorem inclusion_set_from_files walk spec :
  get_filtered_paths walk spec
  = get_filtered_paths (filter (λ e, is_file e = true) walk) spec.
Proof.
  apply set_eq. intros p. rewrite !elem_of_get_filtered_paths. split.
  - intros (e & He & Hp). exists e. split; [|done].
    apply list_elem_of_filter. split; [|done].
    apply elem_of_get_filtered_paths_step in Hp as [Hkept _].
    unfold kept in Hkept. by destruct (is_file e); rewrite ?andb_false_r in Hkept.
  - intros (e & [_ He]%list_elem_of_filter & Hp). by exists e.
Qed.
